(** * unify_pdfs_by_feature: grouping PDFs by a filename feature and merging them

    A shallow embedding of [unify_pdfs_by_feature.py].  Python strings are
    sequences of Unicode code points, the integers are unbounded, the calls
    into PyMuPDF ([fitz]) and into [os] are operations of two interfaces, and
    the effects of a run (directories created, files saved, lines printed,
    streams replaced) are recorded in a trace. *)

From Stdlib Require Import String Ascii.
From Stdlib Require Import ZArith NArith List Bool Lia.
From Stdlib Require Import Permutation Sorted.
Import ListNotations.
Open Scope Z_scope.

(** ** Strings *)

Definition char := N.
Definition str := list char.

(** An ASCII literal of the source, as code points. *)
Definition lit (s : string) : str := map N_of_ascii (list_ascii_of_string s).

(** [len(x)] *)
Definition len {A : Type} (l : list A) : Z := Z.of_nat (length l).

(** [a == b] on strings *)
Fixpoint str_eqb (a b : str) : bool :=
  match a, b with
  | [], [] => true
  | x :: a', y :: b' => N.eqb x y && str_eqb a' b'
  | _, _ => false
  end.

(** [a < b] and [a <= b] on strings: lexicographic on code points. *)
Fixpoint str_ltb (a b : str) : bool :=
  match a, b with
  | _, [] => false
  | [], _ :: _ => true
  | x :: a', y :: b' =>
      if N.ltb x y then true else if N.ltb y x then false else str_ltb a' b'
  end.

Definition str_leb (a b : str) : bool := negb (str_ltb b a).

(** [ch in s] for a one-character [ch]. *)
Definition contains (s : str) (ch : char) : bool := existsb (N.eqb ch) s.

(** [s[a:b]] with Python's clamping of the two bounds. *)
Definition clamp (n i : Z) : Z :=
  if i <? 0 then Z.max (i + n) 0 else Z.min i n.

Definition slice {A : Type} (s : list A) (a b : Z) : list A :=
  let n := len s in
  let lo := clamp n a in
  let hi := clamp n b in
  firstn (Z.to_nat (hi - lo)) (skipn (Z.to_nat lo) s).

(** [s.endswith(suffix)] *)
Definition endswith (s suffix : str) : bool :=
  str_eqb (skipn (length s - length suffix) s) suffix
  && (length suffix <=? length s)%nat.

(** [sorted(xs)] on a list of strings.  Python's sort is stable and compares
    with [<]; an insertion sort that puts an element before the first one it
    is not greater than has the same result. *)
Fixpoint insort (x : str) (l : list str) : list str :=
  match l with
  | [] => [x]
  | y :: l' => if str_ltb y x then y :: insort x l' else x :: y :: l'
  end.

Fixpoint sorted (l : list str) : list str :=
  match l with
  | [] => []
  | x :: l' => insort x (sorted l')
  end.

(** ** The character tables of Python's [str] methods

    [isdigit], [isalpha], [isalnum], [isspace] and [lower] are table lookups
    in the Unicode database of the interpreter.  The tables are an interface
    here; the two laws say that the only strings that lowercase to ["s"] and
    ["y"] are those two letters in either case. *)
Class Unicode := {
  isdigit : char -> bool;
  isalpha : char -> bool;
  isalnum : char -> bool;
  isspace : char -> bool;
  lower : str -> str;
  lower_is_s : forall r, lower r = lit "s" <-> r = lit "s" \/ r = lit "S";
  lower_is_y : forall r, lower r = lit "y" <-> r = lit "y" \/ r = lit "Y"
}.

(** The tables on the ASCII range (code points below 128), where they are
    the familiar ones.  Concrete runs below use ASCII names only. *)
Module Ascii7.
Definition between (lo hi c : N) : bool := ((lo <=? c) && (c <=? hi))%N.
Definition isdigit (c : char) : bool := between 48 57 c.
Definition isalpha (c : char) : bool := between 65 90 c || between 97 122 c.
Definition isalnum (c : char) : bool := isalpha c || isdigit c.
Definition isspace (c : char) : bool := between 9 13 c || between 28 32 c.
Definition lower_char (c : char) : char :=
  if between 65 90 c then (c + 32)%N else c.
Definition lower (s : str) : str := map lower_char s.
End Ascii7.

#[export] Instance ascii_tables : Unicode.
Proof.
  refine {| isdigit := Ascii7.isdigit; isalpha := Ascii7.isalpha;
            isalnum := Ascii7.isalnum; isspace := Ascii7.isspace;
            lower := Ascii7.lower |};
    intros r; unfold Ascii7.lower; cbn [lit list_ascii_of_string map];
    cbv [N_of_ascii N_of_digits N.add N.mul Pos.add Pos.mul Pos.succ];
    (split; [intros E | intros [E | E]; subst r; reflexivity]);
    destruct r as [|x [|y r]]; try discriminate E;
    injection E as E; unfold Ascii7.lower_char in E;
    (destruct (Ascii7.between 65 90 x) eqn:B; [right | left]; f_equal; lia).
Defined.

(** [s.strip()]: leading and trailing whitespace removed. *)
Fixpoint lstrip {U : Unicode} (s : str) : str :=
  match s with
  | [] => []
  | c :: s' => if isspace c then lstrip s' else s
  end.

Definition strip {U : Unicode} (s : str) : str := rev (lstrip (rev (lstrip s))).

(** [sep.join(parts)] *)
Fixpoint str_join (sep : str) (parts : list str) : str :=
  match parts with
  | [] => []
  | [p] => p
  | p :: rest => p ++ sep ++ str_join sep rest
  end.

(** [range(a, b)] *)
Definition range (a b : Z) : list Z :=
  map (fun k => a + Z.of_nat k) (seq 0 (Z.to_nat (b - a))).

(** ** Exceptions *)

(** An instance of [Exception]: its class name and [str(e)]. *)
Record exn := mk_exn { exn_type : str; exn_str : str }.

Inductive result (A : Type) : Type :=
| Ok (a : A)
| Raise (e : exn).
Arguments Ok {A} a.
Arguments Raise {A} e.

Definition bind {A B : Type} (r : result A) (k : A -> result B) : result B :=
  match r with
  | Ok a => k a
  | Raise e => Raise e
  end.

(** ** Feature extraction and file names *)

Definition IndexError_msg : str :=
  lit "Longitud insuficiente en la base de indexaci" ++ [243%N]
  ++ lit "n para cubrir el rango [p1..p2].".

Section Helpers.
Context {U : Unicode}.

Definition apply_filter (s mode : str) : str :=
  if str_eqb mode (lit "digits") then filter isdigit s
  else if str_eqb mode (lit "letters") then filter isalpha s
  else if str_eqb mode (lit "alnum") then filter isalnum s
  else s.

Definition compute_feature (name_stem : str) (p1 p2 : Z)
    (index_on index_filter emit_scope : str) : result (str * str) :=
  let base := if str_eqb index_on (lit "original") then name_stem
              else apply_filter name_stem index_filter in
  let i1 := p1 - 1 in
  let i2 := p2 - 1 in
  if len base <=? i2 then Raise (mk_exn (lit "IndexError") IndexError_msg)
  else
    let slice_raw := slice base i1 (i2 + 1) in
    let feature := apply_filter slice_raw emit_scope in
    let feature := if str_eqb feature [] then slice_raw else feature in
    Ok (feature, base).

(** The test of the loop of [sanitize_feature]:
    [ch.isalnum() or ch in "-_"]. *)
Definition is_safe (ch : char) : bool := isalnum ch || contains (lit "-_") ch.

Definition sanitize_feature (name : str) : str :=
  let safe_chars : list str :=
    fold_left (fun acc ch => if is_safe ch then acc ++ [[ch]]
                             else acc ++ [lit "_"]) name [] in
  let out := concat safe_chars in
  match out with
  | [] => lit "feature"
  | _ :: _ => out
  end.

End Helpers.

(** The indexing basis in the words of the specification: the base name,
    or its filtered version when the index basis is not [original]. *)
Definition basis_of {U : Unicode} (name index_on index_filter : str) : str :=
  if str_eqb index_on (lit "original") then name
  else apply_filter name index_filter.

(** The character-wise map of the sanitizer in the words of the
    specification, with the code points of ["-"] (45) and ["_"] (95). *)
Definition sanitize_char {U : Unicode} (ch : char) : char :=
  if isalnum ch || N.eqb ch 45 || N.eqb ch 95 then ch else 95%N.

(** ** The two libraries the script calls *)

Definition bytes := list Byte.byte.

(** Keyword arguments of [Document.save]. *)
Record save_options := {
  garbage : Z;
  clean : bool;
  deflate : bool;
  deflate_images : bool;
  deflate_fonts : bool;
  use_objstms : Z;
  incremental : bool
}.

(** PyMuPDF, as far as the script uses it.  A call that can raise returns a
    [result]; a call that mutates the document returns the new document. *)
Class Fitz := {
  Doc : Type;
  Pixmap : Type;
  new_doc : Doc;                                  (* fitz.open() *)
  open_pdf : str -> result Doc;                   (* fitz.open(src) *)
  insert_pdf : Doc -> Doc -> result Doc;          (* links, annots, widgets off *)
  xref_length : Doc -> result Z;                  (* doc.xref_length() *)
  xref_get_key : Doc -> Z -> str -> result (str * str);
  xref_stream : Doc -> Z -> result (option bytes);
  new_pixmap : Doc -> Z -> result Pixmap;         (* fitz.Pixmap(doc, xref) *)
  pixmap_n : Pixmap -> Z;
  pixmap_rgb : Pixmap -> result Pixmap;           (* fitz.Pixmap(fitz.csRGB, pix) *)
  tobytes_jpeg : Pixmap -> Z -> result bytes;
  update_stream : Doc -> Z -> bytes -> result Doc;
  scrub : Doc -> result Doc;
  subset_fonts : Doc -> result Doc;
  save : Doc -> str -> save_options -> result unit
}.

(** [os] and [os.path], which depend on the platform and on the disk. *)
Class Os := {
  os_path_abspath : str -> str;
  os_path_join : str -> str -> str;
  os_path_basename : str -> str;
  os_path_dirname : str -> str;
  os_path_splitext : str -> str * str;
  os_path_isfile : str -> bool;
  os_listdir : str -> result (list str);
  os_makedirs : str -> result unit                (* exist_ok=True *)
}.

(** [len(x)] where [x] may be [None]. *)
Definition py_len (x : option bytes) : result Z :=
  match x with
  | Some b => Ok (len b)
  | None => Raise (mk_exn (lit "TypeError")
                          (lit "object of type 'NoneType' has no len()"))
  end.

(** ** Command line *)

Record Args := {
  target_dir : str;
  p1 : Z;
  p2 : Z;
  index_on : str;
  index_filter : str;
  emit_scope : str;
  out_dir_name : str;
  jobs : Z;
  optimize : str;
  serial : bool;
  jpeg_recompress : str;
  jpeg_quality : Z;
  jpeg_min_kb : Z;
  jpeg_only_if_smaller : bool
}.

(** ** Effects *)

(** The lines the script prints, by their contents. *)
Inductive message : Type :=
| MsgInfo (target out : str) (a : Args)      (* the [INFO] header *)
| MsgNoPdfs
| MsgDetected (n : Z)
| MsgStage1
| MsgProgress (prefix : str) (current total : Z)
| MsgNewline
| MsgPlan (planned_csv : str) (n_outputs n_groups skipped : Z)
| MsgPrompt
| MsgCancelled
| MsgStage2
| MsgOK (feat : str) (count : Z)
| MsgWarn (feat : str) (count : Z) (status : str)
| MsgImg (base : str) (replaced : Z)
| MsgEnd (total_groups : Z).

(** What a run does to the world; each event is logged when the call
    returns normally. *)
Inductive event {F : Fitz} : Type :=
| Stdout (m : message)
| MakeDirs (path : str)
| InsertPdf (src : str)
| UpdateStream (xref : Z) (data : bytes)
| Save (path : str) (doc : Doc) (opts : save_options)
| CloseDoc.

(** A computation: the events so far and a value or an exception. *)
Definition M {F : Fitz} (A : Type) : Type := list event * result A.

Section Monad.
Context {F : Fitz}.

Definition ret {A : Type} (a : A) : M A := ([], Ok a).

Definition mbind {A B : Type} (m : M A) (k : A -> M B) : M B :=
  match m with
  | (t, Ok a) => let (t', r) := k a in (t ++ t', r)
  | (t, Raise e) => (t, Raise e)
  end.

Definition emit (e : event) : M unit := ([e], Ok tt).

Definition call {A : Type} (r : result A) : M A := ([], r).

(** [try: body / except Exception as e: handler(e)] *)
Definition try_except {A : Type} (body : M A) (handler : exn -> M A) : M A :=
  match body with
  | (t, Ok a) => (t, Ok a)
  | (t, Raise e) => let (t', r) := handler e in (t ++ t', r)
  end.

(** [try: body / finally: cleanup] *)
Definition try_finally {A : Type} (body : M A) (cleanup : list event) : M A :=
  let (t, r) := body in (t ++ cleanup, r).

(** [for x in xs: s = body(s, x)] *)
Fixpoint for_each {A S : Type} (xs : list A) (body : S -> A -> M S) (s : S)
  : M S :=
  match xs with
  | [] => ret s
  | x :: xs' => mbind (body s x) (for_each xs' body)
  end.

End Monad.

Notation "x <- m ;; k" := (mbind m (fun x => k))
  (at level 61, m at next level, right associativity).
Notation "m ;;; k" := (mbind m (fun _ => k))
  (at level 61, right associativity).

(** ** Image recompression *)

Section Program.
Context {U : Unicode} {O : Os} {F : Fitz}.

(** The body of the loop of [recompress_images_in_doc] for one [xref];
    [continue] is the return of the unchanged state. *)
Definition recompress_xref (quality min_bytes : Z) (only_if_smaller : bool)
    (st : Doc * Z) (xref : Z) : M (Doc * Z) :=
  let '(doc, replaced) := st in
  match bind (xref_get_key doc xref (lit "Subtype")) (fun kv => Ok (snd kv)) with
  | Raise _ => ret (doc, replaced)
  | Ok t =>
  if negb (str_eqb t (lit "/Image")) then ret (doc, replaced) else
  match bind (xref_stream doc xref) py_len with
  | Raise _ => ret (doc, replaced)
  | Ok orig_bytes =>
  if orig_bytes <? min_bytes then ret (doc, replaced) else
  match new_pixmap doc xref with
  | Raise _ => ret (doc, replaced)
  | Ok pix =>
  match (if 5 <=? pixmap_n pix then pixmap_rgb pix else Ok pix) with
  | Raise _ => ret (doc, replaced)
  | Ok pix =>
  match tobytes_jpeg pix quality with
  | Raise _ => ret (doc, replaced)
  | Ok new_bytes =>
  if negb only_if_smaller || (len new_bytes <? orig_bytes) then
    match update_stream doc xref new_bytes with
    | Ok doc' => ([UpdateStream xref new_bytes], Ok (doc', replaced + 1))
    | Raise _ => ret (doc, replaced)
    end
  else ret (doc, replaced)
  end end end end end.

(** Returns the document as mutated and the number of replaced images.
    The call of [doc.xref_length()] is outside every [try]. *)
Definition recompress_images_in_doc (doc : Doc) (quality min_kb : Z)
    (only_if_smaller : bool) : M (Doc * Z) :=
  let replaced := 0 in
  xref_len <- call (xref_length doc) ;;
  let min_bytes := min_kb * 1024 in
  for_each (range 1 xref_len)
           (recompress_xref quality min_bytes only_if_smaller)
           (doc, replaced).

(** ** Merging one group *)

(** [for src in ...: with fitz.open(src) as d: doc_out.insert_pdf(d, ...)] *)
Definition merge_source (doc_out : Doc) (src : str) : M Doc :=
  d <- call (open_pdf src) ;;
  doc_out <- call (insert_pdf doc_out d) ;;
  emit (InsertPdf src) ;;;
  ret doc_out.

Definition save_none : save_options :=
  {| garbage := 0; clean := false; deflate := false; deflate_images := false;
     deflate_fonts := false; use_objstms := 0; incremental := false |}.

Definition save_light : save_options :=
  {| garbage := 3; clean := true; deflate := true; deflate_images := false;
     deflate_fonts := false; use_objstms := 1; incremental := false |}.

Definition save_full : save_options :=
  {| garbage := 4; clean := true; deflate := true; deflate_images := true;
     deflate_fonts := true; use_objstms := 1; incremental := false |}.

Definition save_to (doc_out : Doc) (dest_pdf : str) (o : save_options)
  : M unit :=
  call (save doc_out dest_pdf o) ;;;
  emit (Save dest_pdf doc_out o).

Definition makedirs (path : str) : M unit :=
  call (os_makedirs path) ;;;
  emit (MakeDirs path).

Definition unify_group (dest_pdf : str) (source_paths : list str)
    (optimize : str) (jpeg_recompress : bool)
    (jpeg_quality jpeg_min_kb : Z) (jpeg_only_if_smaller : bool) : M unit :=
  let doc_out := new_doc in
  try_finally
    (doc_out <- for_each (sorted source_paths) merge_source doc_out ;;
     doc_out <-
       (if jpeg_recompress then
          r <- recompress_images_in_doc doc_out jpeg_quality jpeg_min_kb
                                        jpeg_only_if_smaller ;;
          emit (Stdout (MsgImg (os_path_basename dest_pdf) (snd r))) ;;;
          ret (fst r)
        else ret doc_out) ;;
     makedirs (os_path_dirname dest_pdf) ;;;
     if str_eqb optimize (lit "none") then save_to doc_out dest_pdf save_none
     else if str_eqb optimize (lit "light") then
       save_to doc_out dest_pdf save_light
     else
       doc_out <- call (scrub doc_out) ;;
       doc_out <- call (subset_fonts doc_out) ;;
       save_to doc_out dest_pdf save_full)
    [CloseDoc].

(** ** The worker *)

Definition JobResult : Type := str * Z * str.

Definition worker_unify (out_dir feat : str) (paths : list str)
    (optimize : str) (jpeg_recompress : bool)
    (jpeg_quality jpeg_min_kb : Z) (jpeg_only_if_smaller : bool)
  : M JobResult :=
  try_except
    (let safe_feat := sanitize_feature feat in
     let dest_path := os_path_join out_dir (safe_feat ++ lit ".pdf") in
     unify_group dest_path paths optimize jpeg_recompress jpeg_quality
                 jpeg_min_kb jpeg_only_if_smaller ;;;
     ret (feat, len paths, lit "OK"))
    (fun e => ret (feat, len paths, lit "ERROR: " ++ exn_str e)).

(** ** Discovery *)

Definition list_pdfs_flat (dir_path : str) : result (list str) :=
  bind (os_listdir dir_path) (fun names =>
  let out :=
    flat_map (fun name =>
      let full := os_path_join dir_path name in
      if os_path_isfile full && endswith (lower name) (lit ".pdf")
      then [full] else []) names in
  Ok (sorted out)).

Definition stem (path : str) : str :=
  let base := os_path_basename path in
  fst (os_path_splitext base).

(** A [Dict[str, List[str]]], in insertion order. *)
Definition dict : Type := list (str * list str).

(** [groups.setdefault(feat, []).append(f)] *)
Fixpoint setdefault_append (groups : dict) (feat f : str) : dict :=
  match groups with
  | [] => [(feat, [f])]
  | (k, v) :: rest =>
      if str_eqb k feat then (k, v ++ [f]) :: rest
      else (k, v) :: setdefault_append rest feat f
  end.

Definition keys (groups : dict) : list str := map fst groups.

(** [groups[feat]] *)
Fixpoint getitem (groups : dict) (feat : str) : result (list str) :=
  match groups with
  | [] => Raise (mk_exn (lit "KeyError") feat)
  | (k, v) :: rest => if str_eqb k feat then Ok v else getitem rest feat
  end.

Definition print_progress (current total : Z) (prefix : str) : M unit :=
  emit (Stdout (MsgProgress prefix current total)) ;;;
  if total <=? current then emit (Stdout MsgNewline) else ret tt.

(** [enumerate(xs, start)] *)
Fixpoint enumerate {A : Type} (xs : list A) (start : Z) : list (Z * A) :=
  match xs with
  | [] => []
  | x :: xs' => (start, x) :: enumerate xs' (start + 1)
  end.

(** One turn of the loop of stage 1 over [(idx, f)]; the state is
    [(groups, skipped)]. *)
Definition scan_step (a : Args) (total : Z) (st : dict * Z) (item : Z * str)
  : M (dict * Z) :=
  let '(groups, skipped) := st in
  let '(idx, f) := item in
  let s := stem f in
  let st' :=
    match compute_feature s (p1 a) (p2 a) (index_on a) (index_filter a)
                          (emit_scope a) with
    | Raise _ => (groups, skipped + 1)
    | Ok (feat, _) => (setdefault_append groups feat f, skipped)
    end in
  print_progress idx total (lit "[Scan]") ;;;
  ret st'.

Definition scan (a : Args) (pdfs : list str) : M (dict * Z) :=
  let groups : dict := [] in
  let skipped := 0 in
  let total := len pdfs in
  for_each (enumerate pdfs 1) (scan_step a total) (groups, skipped).

(** ** Stage 2 *)

Definition run_worker (a : Args) (out_dir feat : str) (paths : list str)
  : M JobResult :=
  worker_unify out_dir feat paths (optimize a)
               (str_eqb (jpeg_recompress a) (lit "on"))
               (jpeg_quality a) (jpeg_min_kb a) (jpeg_only_if_smaller a).

(** One turn of the serial loop; the state is [done]. *)
Definition serial_step (a : Args) (out_dir : str) (groups : dict)
    (total_groups : Z) (done : Z) (feat : str) : M Z :=
  paths <- call (getitem groups feat) ;;
  try_except
    (run_worker a out_dir feat paths ;;;
     let done := done + 1 in
     print_progress done total_groups (lit "[Merge groups]") ;;;
     emit (Stdout (MsgOK feat (len paths))) ;;;
     ret done)
    (fun e =>
     let done := done + 1 in
     print_progress done total_groups (lit "[Merge groups]") ;;;
     emit (Stdout (MsgWarn feat (len paths) (lit "ERROR: " ++ exn_str e))) ;;;
     ret done).

(** A submitted job: the worker runs in its own process; its effects and
    its result are those of the call. *)
Definition submit (a : Args) (out_dir : str) (groups : dict) (feat : str)
  : M (M JobResult) :=
  paths <- call (getitem groups feat) ;;
  ret (run_worker a out_dir feat paths).

(** [as_completed(futures)]: the futures in the order [order] in which the
    pool finishes them, given by their indices. *)
Definition as_completed {A : Type} (futures : list A) (order : list nat)
  : list A :=
  flat_map (fun i => match nth_error futures i with
                     | Some f => [f]
                     | None => []
                     end) order.

(** One turn of the loop over the completed futures.  The effects of a job
    are placed where it completes. *)
Definition parallel_step (total_groups : Z) (done : Z) (fut : M JobResult)
  : M Z :=
  r <- fut ;;
  let '(feat, count, status) := r in
  let done := done + 1 in
  print_progress done total_groups (lit "[Merge groups]") ;;;
  (if negb (str_eqb status (lit "OK"))
   then emit (Stdout (MsgWarn feat count status))
   else emit (Stdout (MsgOK feat count))) ;;;
  ret done.

(** ** Main *)

Inductive outcome : Type :=
| Finished
| SystemExit (code : Z)
| Uncaught (e : exn).

(** Everything after the prompt was answered affirmatively. *)
Definition stage2 (a : Args) (out_dir : str) (groups : dict)
    (order : list nat) : M unit :=
  emit (Stdout MsgStage2) ;;;
  makedirs out_dir ;;;
  let feats_sorted := sorted (keys groups) in
  let total_groups := len feats_sorted in
  print_progress 0 total_groups (lit "[Merge groups]") ;;;
  (if serial a || (total_groups =? 0) then
     for_each feats_sorted (serial_step a out_dir groups total_groups) 0 ;;;
     ret tt
   else
     (* the pool has min(jobs, total_groups) processes; how many jobs run
        at once does not change what a job does *)
     futures <- for_each feats_sorted
                  (fun acc feat => fut <- submit a out_dir groups feat ;;
                                   ret (acc ++ [fut])) [] ;;
     for_each (as_completed futures order) (parallel_step total_groups) 0 ;;;
     ret tt) ;;;
  emit (Stdout (MsgEnd total_groups)).

(** [resp.lower() not in ("s", "y")] negated. *)
Definition approved (resp : str) : bool :=
  existsb (str_eqb (lower resp)) [lit "s"; lit "y"].

(** [main()] after [parse_args()] returned [a]; [line] is what [input()]
    returns at the prompt and [order] the completion order of the pool. *)
Definition main (a : Args) (line : str) (order : list nat)
  : list event * outcome :=
  let target := os_path_abspath (target_dir a) in
  let out_dir := os_path_join target (out_dir_name a) in
  let t0 := [Stdout (MsgInfo target out_dir a)] in
  match list_pdfs_flat target with
  | Raise e => (t0, Uncaught e)
  | Ok pdfs =>
  match pdfs with
  | [] => (t0 ++ [Stdout MsgNoPdfs], SystemExit 1)
  | _ :: _ =>
  let t1 := t0 ++ [Stdout (MsgDetected (len pdfs)); Stdout MsgStage1] in
  match scan a pdfs with
  | (ts, Raise e) => (t1 ++ ts, Uncaught e)
  | (ts, Ok (groups, skipped)) =>
  let planned_outputs :=
    map (fun feat => sanitize_feature feat ++ lit ".pdf")
        (sorted (keys groups)) in
  let planned_csv := str_join (lit ",") planned_outputs in
  let t2 := t1 ++ ts ++
    [Stdout (MsgPlan planned_csv (len planned_outputs) (len groups) skipped);
     Stdout MsgPrompt] in
  let resp := strip line in
  if negb (approved resp) then (t2 ++ [Stdout MsgCancelled], SystemExit 0)
  else
    match stage2 a out_dir groups order with
    | (t3, Ok _) => (t2 ++ t3, Finished)
    | (t3, Raise e) => (t2 ++ t3, Uncaught e)
    end
  end end end.

End Program.

(** ** Notions used in the statements *)

Section Notions.
Context {U : Unicode} {O : Os}.

(** The key of a document under the configuration [a], if it has one. *)
Definition feature_of (a : Args) (f : str) : option str :=
  match compute_feature (stem f) (p1 a) (p2 a) (index_on a) (index_filter a)
                        (emit_scope a) with
  | Ok (feat, _) => Some feat
  | Raise _ => None
  end.

Definition has_feature (a : Args) (k f : str) : bool :=
  match feature_of a f with
  | Some k' => str_eqb k' k
  | None => false
  end.

Definition is_skipped (a : Args) (f : str) : bool :=
  match feature_of a f with
  | Some _ => false
  | None => true
  end.

(** The sum of the sizes of all groups. *)
Definition total_size (groups : dict) : Z :=
  fold_right (fun kv acc => len (snd kv) + acc) 0 groups.

(** What one turn of the loop of stage 1 does to [(groups, skipped)]. *)
Definition group_step (a : Args) (st : dict * Z) (f : str) : dict * Z :=
  match feature_of a f with
  | Some feat => (setdefault_append (fst st) feat f, snd st)
  | None => (fst st, snd st + 1)
  end.

(** The invariant of that loop: the state after the documents [seen]. *)
Record grouped (a : Args) (seen : list str) (st : dict * Z) : Prop := {
  g_keys : NoDup (keys (fst st));
  g_members : forall k v, In (k, v) (fst st) ->
                v = filter (has_feature a k) seen /\ v <> [];
  g_found : forall f k, In f seen -> feature_of a f = Some k ->
              In k (keys (fst st));
  g_size : total_size (fst st) + snd st = len seen;
  g_skipped : snd st = len (filter (is_skipped a) seen)
}.

End Notions.

Section TraceNotions.
Context {F : Fitz}.

(** The streams replaced in a trace, in order. *)
Definition updates (t : list event) : list (Z * bytes) :=
  flat_map (fun e => match e with
                     | UpdateStream xref data => [(xref, data)]
                     | _ => []
                     end) t.


(** The document after the replacements [us], made one after the other. *)
Fixpoint apply_updates (doc : Doc) (us : list (Z * bytes)) : Doc :=
  match us with
  | [] => doc
  | (xref, data) :: us' =>
      match update_stream doc xref data with
      | Ok doc' => apply_updates doc' us'
      | Raise _ => apply_updates doc us'
      end
  end.

Definition is_stdout (e : event) : bool :=
  match e with
  | Stdout _ => true
  | _ => false
  end.

(** Printing only, and not the opening line of stage 2. *)
Definition quiet (e : event) : Prop :=
  is_stdout e = true /\ e <> Stdout MsgStage2.

(** The pixel buffer that is encoded: decoded from the object, and
    converted to RGB when it has five components or more. *)
Definition decoded (doc : Doc) (xref : Z) : result Pixmap :=
  bind (new_pixmap doc xref) (fun pix =>
    if 5 <=? pixmap_n pix then pixmap_rgb pix else Ok pix).

Definition reencoded (quality : Z) (doc : Doc) (xref : Z) : result bytes :=
  bind (decoded doc xref) (fun pix => tobytes_jpeg pix quality).

(** One of the calls made for the object [xref] raises: reading its type
    or its stream, decoding, converting, encoding, or replacing. *)
Inductive step_fails (quality : Z) (doc : Doc) (xref : Z) : Prop :=
| fails_get_key (e : exn) :
    xref_get_key doc xref (lit "Subtype") = Raise e ->
    step_fails quality doc xref
| fails_stream (e : exn) :
    bind (xref_stream doc xref) py_len = Raise e ->
    step_fails quality doc xref
| fails_decode (e : exn) :
    new_pixmap doc xref = Raise e ->
    step_fails quality doc xref
| fails_convert (pix : Pixmap) (e : exn) :
    new_pixmap doc xref = Ok pix -> 5 <= pixmap_n pix ->
    pixmap_rgb pix = Raise e ->
    step_fails quality doc xref
| fails_encode (e : exn) :
    reencoded quality doc xref = Raise e ->
    step_fails quality doc xref
| fails_replace (data : bytes) (e : exn) :
    reencoded quality doc xref = Ok data ->
    update_stream doc xref data = Raise e ->
    step_fails quality doc xref.

End TraceNotions.

(** ** A small in-memory PDF library and a POSIX [os.path]

    Instances of the two interfaces on which concrete runs are evaluated. *)

Module MemPdf.

Record pix := {
  p_n : Z;                      (* components per pixel *)
  p_rgb : bool;                 (* conversion to RGB succeeds *)
  p_jpeg : result bytes         (* what encoding to JPEG gives *)
}.

Record obj := {
  o_subtype : result (str * str);
  o_stream : result (option bytes);
  o_pixmap : result pix;
  o_writable : bool             (* update_stream succeeds *)
}.

Record doc := { pages : list str; objs : list obj; is_closed : bool }.

Definition err (m : string) : exn := mk_exn (lit "RuntimeError") (lit m).

(** The object numbered [xref]; number 0 is reserved. *)
Definition object (d : doc) (xref : Z) : option obj :=
  if xref <=? 0 then None else nth_error (objs d) (Z.to_nat (xref - 1)).

(** What every call on a closed document raises. *)
Definition closed_error : exn :=
  mk_exn (lit "ValueError") (lit "document closed").

Definition with_object {A : Type} (d : doc) (xref : Z) (k : obj -> result A)
  : result A :=
  if is_closed d then Raise closed_error
  else match object d xref with
       | Some o => k o
       | None => Raise (err "bad xref")
       end.

Fixpoint set_nth {A : Type} (l : list A) (n : nat) (x : A) : list A :=
  match l, n with
  | [], _ => []
  | _ :: l', O => x :: l'
  | y :: l', S n' => y :: set_nth l' n' x
  end.

Definition set_stream (d : doc) (xref : Z) (data : bytes) : result doc :=
  with_object d xref (fun o =>
    if o_writable o then
      Ok {| pages := pages d;
            objs := set_nth (objs d) (Z.to_nat (xref - 1))
                      {| o_subtype := o_subtype o;
                         o_stream := Ok (Some data);
                         o_pixmap := o_pixmap o;
                         o_writable := true |};
            is_closed := false |}
    else Raise (err "cannot update stream")).

Definition to_rgb (p : pix) : result pix :=
  if p_rgb p then Ok {| p_n := 3; p_rgb := true; p_jpeg := p_jpeg p |}
  else Raise (err "unsupported colorspace").

(** The library over a disk [fs] of readable documents. *)
Definition fitz (fs : str -> result doc) : Fitz :=
  {| Doc := doc;
     Pixmap := pix;
     new_doc := {| pages := []; objs := []; is_closed := false |};
     open_pdf := fs;
     insert_pdf := fun out d =>
       Ok {| pages := pages out ++ pages d; objs := objs out ++ objs d;
             is_closed := is_closed out |};
     xref_length := fun d =>
       if is_closed d then Raise closed_error else Ok (len (objs d) + 1);
     xref_get_key := fun d xref _ => with_object d xref o_subtype;
     xref_stream := fun d xref => with_object d xref o_stream;
     new_pixmap := fun d xref => with_object d xref o_pixmap;
     pixmap_n := p_n;
     pixmap_rgb := to_rgb;
     tobytes_jpeg := fun p _ => p_jpeg p;
     update_stream := set_stream;
     scrub := fun d => Ok d;
     subset_fonts := fun d => Ok d;
     save := fun _ _ _ => Ok tt |}.

(** An image object whose stream is [orig] and whose JPEG encoding is
    [jpeg]. *)
Definition image (orig jpeg : bytes) (writable : bool) : obj :=
  {| o_subtype := Ok (lit "name", lit "/Image");
     o_stream := Ok (Some orig);
     o_pixmap := Ok {| p_n := 3; p_rgb := true; p_jpeg := Ok jpeg |};
     o_writable := writable |}.

End MemPdf.

Module PosixPath.

Definition slash : char := 47%N.
Definition dot : char := 46%N.

(** [s.rfind(c)] *)
Fixpoint rfind_from (c : char) (s : str) (i best : Z) : Z :=
  match s with
  | [] => best
  | x :: s' => rfind_from c s' (i + 1) (if N.eqb x c then i else best)
  end.

Definition rfind (c : char) (s : str) : Z := rfind_from c s 0 (-1).

Definition startswith_slash (s : str) : bool :=
  match s with
  | c :: _ => N.eqb c slash
  | [] => false
  end.

Definition join (a b : str) : str :=
  if startswith_slash b then b
  else if match a with [] => true | _ => endswith a [slash] end then a ++ b
  else a ++ [slash] ++ b.

Definition basename (p : str) : str :=
  let i := rfind slash p + 1 in slice p i (len p).

Fixpoint rstrip_slash_rev (r : str) : str :=
  match r with
  | c :: r' => if N.eqb c slash then rstrip_slash_rev r' else r
  | [] => []
  end.

Definition dirname (p : str) : str :=
  let i := rfind slash p + 1 in
  let head := slice p 0 i in
  if forallb (N.eqb slash) head then head
  else rev (rstrip_slash_rev (rev head)).

Definition splitext (p : str) : str * str :=
  let sepIndex := rfind slash p in
  let dotIndex := rfind dot p in
  if sepIndex <? dotIndex then
    if forallb (N.eqb dot) (slice p (sepIndex + 1) dotIndex) then (p, [])
    else (slice p 0 dotIndex, slice p dotIndex (len p))
  else (p, []).

(** A disk with one directory [dir] holding the regular files [names];
    paths are absolute and normalised already. *)
Definition os (dir : str) (names : list str) : Os :=
  {| os_path_abspath := fun p => p;
     os_path_join := join;
     os_path_basename := basename;
     os_path_dirname := dirname;
     os_path_splitext := splitext;
     os_path_isfile := fun _ => true;
     os_listdir := fun d =>
       if str_eqb d dir then Ok names
       else Raise (mk_exn (lit "FileNotFoundError") d);
     os_makedirs := fun _ => Ok tt |}.

End PosixPath.

(** ** Sample data for concrete runs *)

Module Sample.

Definition two_bytes : bytes := [Byte.x00; Byte.x00].
Definition one_byte : bytes := [Byte.x01].

(** One page and one image; [writable] says whether its stream can be
    replaced. *)
Definition one_image (page : str) (writable : bool) : MemPdf.doc :=
  {| MemPdf.pages := [page];
     MemPdf.objs := [MemPdf.image two_bytes one_byte writable];
     MemPdf.is_closed := false |}.

Definition locked_doc : MemPdf.doc := one_image (lit "p1") false.
Definition plain_doc : MemPdf.doc := one_image (lit "p1") true.

(** The same document after [close()]. *)
Definition closed_doc : MemPdf.doc :=
  {| MemPdf.pages := [lit "p1"];
     MemPdf.objs := [MemPdf.image two_bytes one_byte true];
     MemPdf.is_closed := true |}.

(** A disk on which every file is a one-page document, except
    [/d/B1.pdf], which cannot be opened. *)
Definition disk (path : str) : result MemPdf.doc :=
  if str_eqb path (lit "/d/B1.pdf") then Raise (MemPdf.err "broken")
  else Ok (one_image path true).

#[export] Instance pdf : Fitz := MemPdf.fitz disk.

#[export] Instance os : Os :=
  PosixPath.os (lit "/d") [lit "A2.pdf"; lit "B1.pdf"; lit "A1.pdf"].

(** [--target-dir /d --p1 1 --p2 1 --emit-scope letters], serial or not. *)
Definition args (serial_mode : bool) : Args :=
  {| target_dir := lit "/d"; p1 := 1; p2 := 1;
     index_on := lit "original"; index_filter := lit "digits";
     emit_scope := lit "letters"; out_dir_name := lit "unified_files";
     jobs := 2; optimize := lit "light"; serial := serial_mode;
     jpeg_recompress := lit "on"; jpeg_quality := 70; jpeg_min_kb := 0;
     jpeg_only_if_smaller := true |}.

(** The same with [--p1 1 --p2 2]. *)
Definition args_two_chars : Args :=
  {| target_dir := lit "/d"; p1 := 1; p2 := 2;
     index_on := lit "original"; index_filter := lit "digits";
     emit_scope := lit "all"; out_dir_name := lit "unified_files";
     jobs := 2; optimize := lit "light"; serial := true;
     jpeg_recompress := lit "on"; jpeg_quality := 70; jpeg_min_kb := 0;
     jpeg_only_if_smaller := true |}.

End Sample.

(** ** The checks of [parse_args]

    [argparse] builds the namespace; the function then checks and adjusts
    it.  [args] is the namespace as [parser.parse_args()] returned it and
    [isdir] is [os.path.isdir]. *)

Definition ValueError (msg : str) : exn := mk_exn (lit "ValueError") msg.

(** [args.jobs = j] *)
Definition set_jobs (a : Args) (j : Z) : Args :=
  {| target_dir := target_dir a; p1 := p1 a; p2 := p2 a;
     index_on := index_on a; index_filter := index_filter a;
     emit_scope := emit_scope a; out_dir_name := out_dir_name a;
     jobs := j; optimize := optimize a; serial := serial a;
     jpeg_recompress := jpeg_recompress a; jpeg_quality := jpeg_quality a;
     jpeg_min_kb := jpeg_min_kb a;
     jpeg_only_if_smaller := jpeg_only_if_smaller a |}.

(** [args.jpeg_min_kb = k] *)
Definition set_jpeg_min_kb (a : Args) (k : Z) : Args :=
  {| target_dir := target_dir a; p1 := p1 a; p2 := p2 a;
     index_on := index_on a; index_filter := index_filter a;
     emit_scope := emit_scope a; out_dir_name := out_dir_name a;
     jobs := jobs a; optimize := optimize a; serial := serial a;
     jpeg_recompress := jpeg_recompress a; jpeg_quality := jpeg_quality a;
     jpeg_min_kb := k;
     jpeg_only_if_smaller := jpeg_only_if_smaller a |}.

Definition parse_args {O : Os} (isdir : str -> bool) (args : Args)
  : result Args :=
  if (p1 args <=? 0) || (p2 args <=? 0) then
    Raise (ValueError
             (lit "--p1 y --p2 deben ser enteros positivos (1-based)."))
  else if p2 args <? p1 args then
    Raise (ValueError (lit "--p2 debe ser >= --p1 (rango inclusivo)."))
  else
    let target := os_path_abspath (target_dir args) in
    if negb (isdir target) then
      Raise (ValueError (lit "--target-dir no es un directorio v" ++ [225%N]
                         ++ lit "lido: " ++ target))
    else
      let args := if jobs args <? 1 then set_jobs args 1 else args in
      if (jpeg_quality args <? 1) || (100 <? jpeg_quality args) then
        Raise (ValueError
                 (lit "--jpeg-quality debe estar entre 1 y 100 (recomendado 60-95)."))
      else
        let args :=
          if jpeg_min_kb args <? 0 then set_jpeg_min_kb args 0 else args in
        Ok args.

(** ** More notions used in the statements *)

(** The list stored under a key, empty when the key is absent. *)
Definition group_of (groups : dict) (feat : str) : list str :=
  match getitem groups feat with
  | Ok v => v
  | Raise _ => []
  end.

(** The keyword arguments [unify_group] saves with at a level. *)
Definition save_options_of (optimize : str) : save_options :=
  if str_eqb optimize (lit "none") then save_none
  else if str_eqb optimize (lit "light") then save_light
  else save_full.

Section MoreNotions.
Context {U : Unicode} {O : Os} {F : Fitz}.

(** The [OK] and [WARN] lines of a trace, in order. *)
Definition reports (t : list event) : list message :=
  flat_map (fun e => match e with
                     | Stdout (MsgOK feat count) => [MsgOK feat count]
                     | Stdout (MsgWarn feat count status) =>
                         [MsgWarn feat count status]
                     | _ => []
                     end) t.

(** The files saved in a trace, with the options they were saved with. *)
Definition saves (t : list event) : list (str * save_options) :=
  flat_map (fun e => match e with
                     | Save path _ opts => [(path, opts)]
                     | _ => []
                     end) t.

(** The job of a group under the configuration [a]. *)
Definition job (a : Args) (out_dir feat : str) (paths : list str) : M unit :=
  unify_group (os_path_join out_dir (sanitize_feature feat ++ lit ".pdf"))
              paths (optimize a) (str_eqb (jpeg_recompress a) (lit "on"))
              (jpeg_quality a) (jpeg_min_kb a) (jpeg_only_if_smaller a).

(** The line the pool prints for a group: by the outcome of its job. *)
Definition pool_report (a : Args) (out_dir : str) (groups : dict)
    (feat : str) : message :=
  match snd (job a out_dir feat (group_of groups feat)) with
  | Ok _ => MsgOK feat (len (group_of groups feat))
  | Raise e => MsgWarn feat (len (group_of groups feat))
                       (lit "ERROR: " ++ exn_str e)
  end.

(** The document as it stands when the loop of a run with trace [t]
    reaches the object [xref]: the replacements of the objects before it
    have been made. *)
Definition doc_when_reached (doc : Doc) (t : list event) (xref : Z) : Doc :=
  apply_updates doc (filter (fun u => fst u <? xref) (updates t)).

(** An event a job can log. *)
Definition is_job_event (e : event) : bool :=
  match e with
  | Stdout (MsgImg _ _) => true
  | Stdout _ => false
  | _ => true
  end.

(** What follows the merging loop in [unify_group]. *)
Definition after_merge (dest_pdf optimize : str) (jr : bool) (jq jm : Z)
    (js : bool) (doc_out : Doc) : M unit :=
  doc_out <-
    (if jr then
       r <- recompress_images_in_doc doc_out jq jm js ;;
       emit (Stdout (MsgImg (os_path_basename dest_pdf) (snd r))) ;;;
       ret (fst r)
     else ret doc_out) ;;
  makedirs (os_path_dirname dest_pdf) ;;;
  if str_eqb optimize (lit "none") then save_to doc_out dest_pdf save_none
  else if str_eqb optimize (lit "light") then
    save_to doc_out dest_pdf save_light
  else
    doc_out <- call (scrub doc_out) ;;
    doc_out <- call (subset_fonts doc_out) ;;
    save_to doc_out dest_pdf save_full.

(** A computation that saves [s] once when it ends normally and saves
    nothing when it raises. *)
Definition saves_iff_ok {A : Type} (s : str * save_options) (m : M A)
  : Prop :=
  (exists x, snd m = Ok x /\ saves (fst m) = [s])
  \/ (exists e, snd m = Raise e /\ saves (fst m) = []).

End MoreNotions.

(** The groups of the sample directory under [Sample.args]. *)
Module SampleRun.

Definition groups : dict :=
  [(lit "A", [lit "/d/A1.pdf"; lit "/d/A2.pdf"]);
   (lit "B", [lit "/d/B1.pdf"])].

Definition out_dir : str := lit "/d/unified_files".

End SampleRun.

(** * Properties *)

(** ** Strings: equality and order *)

Lemma str_eqb_eq (a b : str) : str_eqb a b = true <-> a = b.
Proof.
  revert b. induction a as [|x a IH]; intros [|y b]; simpl;
    try (split; (discriminate || reflexivity)).
  rewrite andb_true_iff, N.eqb_eq, IH. split.
  - intros [-> ->]. reflexivity.
  - intros E. injection E as -> ->. now split.
Qed.

Lemma str_eqb_refl (a : str) : str_eqb a a = true.
Proof. now apply str_eqb_eq. Qed.

Lemma str_eqb_neq (a b : str) : str_eqb a b = false <-> a <> b.
Proof.
  rewrite <- str_eqb_eq. destruct (str_eqb a b); split; congruence.
Qed.

Lemma str_eqb_sym (a b : str) : str_eqb a b = str_eqb b a.
Proof.
  destruct (str_eqb b a) eqn:E.
  - apply str_eqb_eq in E. subst. apply str_eqb_refl.
  - apply str_eqb_neq. apply str_eqb_neq in E. congruence.
Qed.

Lemma str_ltb_irrefl (a : str) : str_ltb a a = false.
Proof.
  induction a as [|x a IH]; simpl; [reflexivity|].
  now rewrite N.ltb_irrefl.
Qed.

Lemma str_ltb_trans (a b c : str) :
  str_ltb a b = true -> str_ltb b c = true -> str_ltb a c = true.
Proof.
  revert b c. induction a as [|x a IH]; intros [|y b] [|z c]; simpl;
    try discriminate; try reflexivity.
  destruct (N.ltb_spec x y), (N.ltb_spec y x), (N.ltb_spec y z),
    (N.ltb_spec z y), (N.ltb_spec x z), (N.ltb_spec z x);
    try discriminate; try reflexivity; try lia.
  apply IH.
Qed.

(** Two strings neither of which is below the other are equal. *)
Lemma str_ltb_antisym (a b : str) :
  str_ltb a b = false -> str_ltb b a = false -> a = b.
Proof.
  revert b. induction a as [|x a IH]; intros [|y b]; simpl;
    try discriminate; try reflexivity.
  destruct (N.ltb_spec x y), (N.ltb_spec y x); try discriminate; try lia.
  intros Hab Hba. f_equal; [lia | now apply IH].
Qed.

Lemma str_ltb_asym (a b : str) : str_ltb a b = true -> str_ltb b a = false.
Proof.
  intros Hab. destruct (str_ltb b a) eqn:Hba; [|reflexivity].
  pose proof (str_ltb_trans _ _ _ Hab Hba) as E.
  now rewrite str_ltb_irrefl in E.
Qed.

Lemma str_leb_trans (a b c : str) :
  str_leb a b = true -> str_leb b c = true -> str_leb a c = true.
Proof.
  unfold str_leb. rewrite !negb_true_iff. intros Hba Hcb.
  destruct (str_ltb c a) eqn:Hca; [|reflexivity].
  destruct (str_ltb a b) eqn:Hab.
  - now rewrite (str_ltb_trans _ _ _ Hca Hab) in Hcb.
  - rewrite (str_ltb_antisym _ _ Hab Hba) in Hca. congruence.
Qed.

(** ** [sorted] *)

Lemma insort_perm (x : str) (l : list str) : Permutation (x :: l) (insort x l).
Proof.
  induction l as [|y l IH]; simpl; [reflexivity|].
  destruct (str_ltb y x); [|reflexivity].
  rewrite perm_swap. now constructor.
Qed.

Lemma sorted_perm (l : list str) : Permutation l (sorted l).
Proof.
  induction l as [|x l IH]; simpl; [constructor|].
  rewrite <- insort_perm. now constructor.
Qed.

Lemma insort_ordered (x : str) (l : list str) :
  StronglySorted (fun a b => str_leb a b = true) l ->
  StronglySorted (fun a b => str_leb a b = true) (insort x l).
Proof.
  induction 1 as [|y l Hs IH Hy]; simpl.
  - repeat constructor.
  - destruct (str_ltb y x) eqn:Hyx.
    + constructor; [exact IH|].
      rewrite <- insort_perm. constructor; [|exact Hy].
      unfold str_leb. now rewrite (str_ltb_asym _ _ Hyx).
    + assert (Hxy : str_leb x y = true) by (unfold str_leb; now rewrite Hyx).
      constructor; [now constructor|].
      constructor; [exact Hxy|].
      eapply Forall_impl; [|exact Hy]. intros z Hz.
      eapply str_leb_trans; eauto.
Qed.

Lemma sorted_ordered (l : list str) :
  StronglySorted (fun a b => str_leb a b = true) (sorted l).
Proof.
  induction l as [|x l IH]; simpl; [constructor|]. now apply insort_ordered.
Qed.




(** ** Slices *)

Lemma slice_in_range {A : Type} (s : list A) (a b : Z) :
  0 <= a <= b -> b <= len s ->
  slice s a b = firstn (Z.to_nat (b - a)) (skipn (Z.to_nat a) s).
Proof.
  intros Hab Hb. unfold slice, clamp.
  destruct (Z.ltb_spec a 0), (Z.ltb_spec b 0); try lia.
  now rewrite !Z.min_l by lia.
Qed.

Lemma slice_length {A : Type} (s : list A) (a b : Z) :
  0 <= a <= b -> b <= len s -> len (slice s a b) = b - a.
Proof.
  intros Hab Hb. rewrite slice_in_range by assumption.
  unfold len in *. rewrite length_firstn, length_skipn. lia.
Qed.

Lemma slice_nth {A : Type} (s : list A) (a b : Z) (k : nat) :
  0 <= a <= b -> b <= len s -> (k < Z.to_nat (b - a))%nat ->
  nth_error (slice s a b) k = nth_error s (Z.to_nat a + k).
Proof.
  intros Hab Hb Hk. rewrite slice_in_range by assumption.
  rewrite nth_error_firstn.
  destruct (Nat.ltb_spec k (Z.to_nat (b - a))); [|lia].
  apply nth_error_skipn.
Qed.

(** ** The feature extractor *)

Section FeatureProperties.
Context {U : Unicode}.

Lemma compute_feature_unfold (name : str) (p1 p2 : Z)
    (index_on index_filter emit_scope : str) :
  compute_feature name p1 p2 index_on index_filter emit_scope =
  let base := basis_of name index_on index_filter in
  if len base <? p2 then Raise (mk_exn (lit "IndexError") IndexError_msg)
  else
    let slice_raw := slice base (p1 - 1) p2 in
    let feature := apply_filter slice_raw emit_scope in
    Ok (if str_eqb feature [] then slice_raw else feature, base).
Proof.
  unfold compute_feature, basis_of. cbv zeta.
  replace (p2 - 1 + 1) with p2 by lia.
  set (base := if str_eqb index_on (lit "original") then name
               else apply_filter name index_filter).
  assert (E : (len base <=? p2 - 1) = (len base <? p2)).
  { destruct (Z.leb_spec (len base) (p2 - 1)), (Z.ltb_spec (len base) p2);
      lia || reflexivity. }
  now rewrite E.
Qed.

(** C2.  [compute_feature] raises its [IndexError] exactly when the indexing
    basis (the base name, or its filtered version when the index basis is
    not [original]) is shorter than [p2], whatever [p1], the filters and the
    emit scope are, so in particular for [1 <= p1 <= p2]; and the base name
    ["7"] with [p1 = 1], [p2 = 2] on the original basis raises it. *)
Theorem compute_feature_index_error_iff :
  (forall (name : str) (p1 p2 : Z) (index_on index_filter emit_scope : str),
     (exists e,
        compute_feature name p1 p2 index_on index_filter emit_scope = Raise e
        /\ exn_type e = lit "IndexError")
     <-> len (basis_of name index_on index_filter) < p2)
  /\ (forall index_filter emit_scope : str,
        compute_feature (lit "7") 1 2 (lit "original") index_filter emit_scope
        = Raise (mk_exn (lit "IndexError") IndexError_msg)).
Proof.
  split.
  - intros name p1 p2 index_on index_filter emit_scope.
    rewrite compute_feature_unfold. cbv zeta.
    destruct (Z.ltb_spec (len (basis_of name index_on index_filter)) p2)
      as [Hlt | Hge]; split.
    + intros _. exact Hlt.
    + intros _. eexists. split; reflexivity.
    + intros [e [E _]]. discriminate E.
    + lia.
  - intros index_filter emit_scope. reflexivity.
Qed.

(** C9.  When the indexing basis has at least [p2] characters and
    [1 <= p1 <= p2], [compute_feature] returns a key, together with the
    basis.  With [slice_raw] the characters at positions [p1..p2] of the
    basis, [p2 - p1 + 1 >= 1] of them, the key is [slice_raw] filtered by
    the emit scope when that is not empty and [slice_raw] itself otherwise;
    it is never empty. *)
Theorem compute_feature_key_nonempty (name : str) (p1 p2 : Z)
    (index_on index_filter emit_scope : str) :
  1 <= p1 <= p2 ->
  p2 <= len (basis_of name index_on index_filter) ->
  exists slice_raw feature : str,
    compute_feature name p1 p2 index_on index_filter emit_scope
      = Ok (feature, basis_of name index_on index_filter)
    /\ len slice_raw = p2 - p1 + 1
    /\ (forall k : nat, Z.of_nat k < p2 - p1 + 1 ->
          nth_error slice_raw k
          = nth_error (basis_of name index_on index_filter)
                      (Z.to_nat (p1 - 1) + k))
    /\ (apply_filter slice_raw emit_scope <> [] ->
          feature = apply_filter slice_raw emit_scope)
    /\ (apply_filter slice_raw emit_scope = [] -> feature = slice_raw)
    /\ feature <> [].
Proof.
  intros Hp Hlen.
  set (base := basis_of name index_on index_filter) in *.
  exists (slice base (p1 - 1) p2).
  rewrite compute_feature_unfold. cbv zeta. fold base.
  destruct (Z.ltb_spec (len base) p2); [lia|].
  assert (Hl : len (slice base (p1 - 1) p2) = p2 - p1 + 1).
  { rewrite slice_length; lia. }
  eexists. split; [reflexivity|]. split; [exact Hl|]. split.
  { intros k Hk. apply slice_nth; lia. }
  destruct (str_eqb (apply_filter (slice base (p1 - 1) p2) emit_scope) [])
    eqn:E.
  - apply str_eqb_eq in E. repeat split; try congruence.
    intros Hs. rewrite Hs in Hl. unfold len in Hl. simpl in Hl. lia.
  - apply str_eqb_neq in E. repeat split; congruence.
Qed.

(** ** The file-name sanitizer *)

Lemma is_safe_spec (ch : char) :
  is_safe ch = isalnum ch || N.eqb ch 45 || N.eqb ch 95.
Proof.
  unfold is_safe, contains. simpl. now rewrite orb_false_r, orb_assoc.
Qed.

Lemma sanitize_loop (name : str) (acc : list str) :
  concat (fold_left (fun acc ch => if is_safe ch then acc ++ [[ch]]
                                   else acc ++ [lit "_"]) name acc)
  = concat acc ++ map sanitize_char name.
Proof.
  revert acc. induction name as [|ch name IH]; intros acc; simpl.
  - now rewrite app_nil_r.
  - rewrite IH. unfold sanitize_char. rewrite <- is_safe_spec.
    destruct (is_safe ch); rewrite concat_app; simpl;
      now rewrite <- app_assoc.
Qed.

(** C10.  [sanitize_feature] maps every character of the name that is
    alphanumeric, a hyphen or an underscore to itself and every other one to
    ["_"]: the mapped string has the length of the name and holds only such
    characters.  It is what the function returns when it is not empty; the
    placeholder ["feature"] is returned in its place exactly when it is
    empty, which is when the name is empty. *)
Theorem sanitize_feature_spec (name : str) :
  let out := map sanitize_char name in
  length out = length name
  /\ Forall (fun ch => isalnum ch = true \/ ch = 45%N \/ ch = 95%N) out
  /\ (out = [] <-> name = [])
  /\ (name = [] -> sanitize_feature name = lit "feature")
  /\ (name <> [] -> sanitize_feature name = out).
Proof.
  cbv zeta. split; [apply length_map|]. split.
  { apply Forall_forall. intros ch Hin. apply in_map_iff in Hin.
    destruct Hin as [c [<- _]]. unfold sanitize_char.
    destruct (isalnum c) eqn:Ea; simpl; [now left|].
    destruct (N.eqb_spec c 45); simpl; [now right; left|].
    destruct (N.eqb_spec c 95); simpl; right; right; congruence. }
  split.
  { destruct name; simpl; split; congruence. }
  unfold sanitize_feature. cbv zeta. rewrite sanitize_loop. simpl.
  split.
  - intros ->. reflexivity.
  - destruct name as [|c name]; [congruence|]. reflexivity.
Qed.

End FeatureProperties.

Lemma compute_feature_key_nonempty_witness :
  1 <= 1 <= 1
  /\ 1 <= len (basis_of (lit "A1") (lit "original") (lit "digits"))
  /\ exists slice_raw feature : str,
       compute_feature (lit "A1") 1 1 (lit "original") (lit "digits")
                       (lit "letters")
         = Ok (feature, basis_of (lit "A1") (lit "original") (lit "digits"))
       /\ len slice_raw = 1 - 1 + 1
       /\ (forall k : nat, Z.of_nat k < 1 - 1 + 1 ->
             nth_error slice_raw k
             = nth_error (basis_of (lit "A1") (lit "original") (lit "digits"))
                         (Z.to_nat (1 - 1) + k))
       /\ (apply_filter slice_raw (lit "letters") <> [] ->
             feature = apply_filter slice_raw (lit "letters"))
       /\ (apply_filter slice_raw (lit "letters") = [] -> feature = slice_raw)
       /\ feature <> [].
Proof.
  split; [lia|]. split; [vm_compute; discriminate|].
  apply (compute_feature_key_nonempty (lit "A1") 1 1 (lit "original")
           (lit "digits") (lit "letters")).
  - lia.
  - vm_compute; discriminate.
Defined.

(** ** The monad *)

Section MonadProperties.
Context {F : Fitz}.

Lemma mbind_ok {A B : Type} (t : list event) (a : A) (k : A -> M B) :
  mbind (t, Ok a) k = (t ++ fst (k a), snd (k a)).
Proof. simpl. now destruct (k a). Qed.

(** A loop whose body never raises is the fold of the body's values. *)
Lemma for_each_total {A S : Type} (body : S -> A -> M S) (step : S -> A -> S)
    (xs : list A) (s : S) :
  (forall s x, snd (body s x) = Ok (step s x)) ->
  snd (for_each xs body s) = Ok (fold_left step xs s).
Proof.
  intros Hb. revert s. induction xs as [|x xs IH]; intros s; simpl.
  - reflexivity.
  - specialize (Hb s x). destruct (body s x) as [t r]. simpl in Hb. subst r.
    rewrite mbind_ok. simpl. apply IH.
Qed.

End MonadProperties.

(** ** The grouping pass *)

Section Grouping.
Context {U : Unicode} {O : Os} {F : Fitz}.
Variable a : Args.

Lemma scan_step_value (total : Z) (st : dict * Z) (item : Z * str) :
  snd (scan_step a total st item) = Ok (group_step a st (snd item)).
Proof.
  destruct st as [g s], item as [idx f]. unfold scan_step, group_step,
    feature_of, print_progress. simpl.
  destruct (compute_feature _ _ _ _ _ _) as [[feat base]|e];
    destruct (total <=? idx); reflexivity.
Qed.

Lemma scan_value_from (total : Z) (pdfs : list str) (start : Z)
    (st : dict * Z) :
  snd (for_each (enumerate pdfs start) (scan_step a total) st)
  = Ok (fold_left (group_step a) pdfs st).
Proof.
  revert start st. induction pdfs as [|f pdfs IH]; intros start st; simpl.
  - reflexivity.
  - pose proof (scan_step_value total st (start, f)) as E.
    destruct (scan_step a total st (start, f)) as [t r]. simpl in E. subst r.
    rewrite mbind_ok. simpl. apply IH.
Qed.

Lemma scan_value (pdfs : list str) :
  snd (scan a pdfs) = Ok (fold_left (group_step a) pdfs ([], 0)).
Proof. apply scan_value_from. Qed.

Lemma keys_setdefault_append (g : dict) (k f k' : str) :
  In k' (keys (setdefault_append g k f)) <-> k' = k \/ In k' (keys g).
Proof.
  induction g as [|[k0 v0] g IH]; simpl.
  - intuition.
  - destruct (str_eqb k0 k) eqn:E; simpl.
    + apply str_eqb_eq in E. subst. intuition.
    + rewrite IH. intuition.
Qed.

Lemma NoDup_setdefault_append (g : dict) (k f : str) :
  NoDup (keys g) -> NoDup (keys (setdefault_append g k f)).
Proof.
  induction g as [|[k0 v0] g IH]; simpl; intros Hn.
  - repeat constructor. intros [].
  - inversion Hn as [|? ? Hnotin Hn']; subst.
    destruct (str_eqb k0 k) eqn:E; simpl.
    + now constructor.
    + constructor; [|now apply IH].
      rewrite keys_setdefault_append. intros [-> | Hin]; [|contradiction].
      now rewrite str_eqb_refl in E.
Qed.

Lemma In_keys (g : dict) (k : str) (v : list str) :
  In (k, v) g -> In k (keys g).
Proof. intros Hin. apply (in_map fst) in Hin. exact Hin. Qed.

Lemma In_setdefault_append (g : dict) (k f k' : str) (v' : list str) :
  NoDup (keys g) ->
  In (k', v') (setdefault_append g k f) ->
  (k' <> k /\ In (k', v') g)
  \/ (k' = k /\ exists v, In (k, v) g /\ v' = v ++ [f])
  \/ (k' = k /\ ~ In k (keys g) /\ v' = [f]).
Proof.
  induction g as [|[k0 v0] g IH]; simpl; intros Hn.
  - intros [E | []]. injection E as <- <-. right; right. intuition.
  - inversion Hn as [|? ? Hnotin Hn']; subst.
    destruct (str_eqb k0 k) eqn:E; simpl.
    + apply str_eqb_eq in E. subst k0. intros [E | Hin].
      * injection E as <- <-. right; left. split; [reflexivity|].
        exists v0. auto.
      * left. split; [|auto]. intros ->.
        apply Hnotin. eapply In_keys; eauto.
    + apply str_eqb_neq in E. intros [E' | Hin].
      * injection E' as <- <-. left. auto.
      * destruct (IH Hn' Hin) as [[Hne Hi] | [[-> [v [Hi ->]]] | [-> [Hk ->]]]].
        -- left. auto.
        -- right; left. split; [reflexivity|]. exists v. auto.
        -- right; right. intuition.
Qed.

Lemma total_size_setdefault_append (g : dict) (k f : str) :
  total_size (setdefault_append g k f) = total_size g + 1.
Proof.
  induction g as [|[k0 v0] g IH]; simpl.
  - reflexivity.
  - destruct (str_eqb k0 k); simpl.
    + unfold len. rewrite length_app. simpl. lia.
    + rewrite IH. lia.
Qed.

Lemma filter_snoc {A : Type} (p : A -> bool) (l : list A) (x : A) :
  filter p (l ++ [x]) = if p x then filter p l ++ [x] else filter p l.
Proof.
  rewrite filter_app. simpl. destruct (p x); [reflexivity|apply app_nil_r].
Qed.

Lemma grouped_start : grouped a [] ([], 0).
Proof.
  constructor; simpl; try reflexivity; try constructor; intros; contradiction.
Qed.

Lemma grouped_step (seen : list str) (st : dict * Z) (f : str) :
  grouped a seen st -> grouped a (seen ++ [f]) (group_step a st f).
Proof.
  intros [Hk Hm Hf Hs Hsk]. destruct st as [g s]. simpl in *.
  unfold group_step. simpl.
  destruct (feature_of a f) as [feat|] eqn:Ef; constructor; simpl.
  - now apply NoDup_setdefault_append.
  - intros k v Hin. rewrite filter_snoc. unfold has_feature at 1.
    rewrite Ef.
    destruct (In_setdefault_append _ _ _ _ _ Hk Hin)
      as [[Hne Hi] | [[-> [v0 [Hi ->]]] | [-> [Hnk ->]]]].
    + assert (E : str_eqb feat k = false) by (apply str_eqb_neq; congruence).
      rewrite E. now apply Hm.
    + rewrite str_eqb_refl. destruct (Hm _ _ Hi) as [<- _].
      split; [reflexivity|]. now destruct v0.
    + rewrite str_eqb_refl. split; [|discriminate].
      replace (filter (has_feature a feat) seen) with (@nil str);
        [reflexivity|].
      symmetry. destruct (filter (has_feature a feat) seen) as [|x l] eqn:E;
        [reflexivity|]. exfalso. apply Hnk.
      assert (Hx : In x (filter (has_feature a feat) seen))
        by (rewrite E; now left).
      apply filter_In in Hx. destruct Hx as [Hx Hp].
      unfold has_feature in Hp.
      destruct (feature_of a x) as [kx|] eqn:Ex; [|discriminate].
      apply str_eqb_eq in Hp. subst kx. eapply Hf; eauto.
  - intros f' k Hin Ek. rewrite keys_setdefault_append.
    apply in_app_or in Hin. destruct Hin as [Hin | [<- | []]].
    + right. eapply Hf; eauto.
    + left. congruence.
  - rewrite total_size_setdefault_append. unfold len in *.
    rewrite length_app. simpl. lia.
  - rewrite filter_snoc. unfold is_skipped at 1. now rewrite Ef.
  - exact Hk.
  - intros k v Hin. rewrite filter_snoc. unfold has_feature at 1.
    rewrite Ef. now apply Hm.
  - intros f' k Hin Ek. apply in_app_or in Hin.
    destruct Hin as [Hin | [<- | []]]; [eapply Hf; eauto | congruence].
  - unfold len in *. rewrite length_app. simpl. lia.
  - rewrite filter_snoc. unfold is_skipped at 1. rewrite Ef.
    unfold len in *. rewrite length_app. simpl. lia.
Qed.

Lemma grouped_fold (rest seen : list str) (st : dict * Z) :
  grouped a seen st ->
  grouped a (seen ++ rest) (fold_left (group_step a) rest st).
Proof.
  revert seen st. induction rest as [|f rest IH]; intros seen st Hg; simpl.
  - now rewrite app_nil_r.
  - replace (seen ++ f :: rest) with ((seen ++ [f]) ++ rest)
      by now rewrite <- app_assoc.
    apply IH. now apply grouped_step.
Qed.

(** C3.  The grouping pass of stage 1 never fails and partitions the
    discovered documents: the sizes of the groups and the skip counter add
    up to the number of documents; the keys of the groups are distinct and
    each group is exactly the documents that have its key, in discovery
    order, so a document with a key is in the group of that key and in no
    other; the skip counter is the number of documents whose extraction
    fails, and such a document is in no group. *)
Theorem scan_partitions (pdfs : list str) :
  exists (groups : dict) (skipped : Z),
    snd (scan a pdfs) = Ok (groups, skipped)
    /\ total_size groups + skipped = len pdfs
    /\ NoDup (keys groups)
    /\ (forall k v, In (k, v) groups ->
          v = filter (has_feature a k) pdfs /\ v <> [])
    /\ (forall f k, In f pdfs -> feature_of a f = Some k ->
          exists v, In (k, v) groups /\ In f v
                    /\ forall k' v', In (k', v') groups -> In f v' -> k' = k)
    /\ skipped = len (filter (is_skipped a) pdfs)
    /\ (forall f, In f pdfs -> feature_of a f = None ->
          forall k v, In (k, v) groups -> ~ In f v).
Proof.
  destruct (fold_left (group_step a) pdfs ([], 0)) as [groups skipped] eqn:E.
  exists groups, skipped.
  pose proof (grouped_fold pdfs [] ([], 0) grouped_start) as Hg.
  rewrite E in Hg. simpl in Hg. destruct Hg as [Hk Hm Hf Hs Hsk].
  simpl in *.
  assert (Hin_group : forall f k v, In (k, v) groups -> In f v ->
                                    feature_of a f = Some k).
  { intros f k v Hi Hfv. destruct (Hm _ _ Hi) as [-> _].
    apply filter_In in Hfv. destruct Hfv as [_ Hp]. unfold has_feature in Hp.
    destruct (feature_of a f) as [k'|]; [|discriminate].
    apply str_eqb_eq in Hp. now subst. }
  split; [rewrite scan_value; now rewrite E|].
  split; [exact Hs|]. split; [exact Hk|]. split; [exact Hm|].
  split; [|split; [exact Hsk|]].
  - intros f k Hin Ek. pose proof (Hf _ _ Hin Ek) as Hkeys.
    apply in_map_iff in Hkeys. destruct Hkeys as [[k0 v] [E0 Hi]].
    simpl in E0. subst k0. exists v. split; [exact Hi|]. split.
    + destruct (Hm _ _ Hi) as [-> _]. apply filter_In. split; [exact Hin|].
      unfold has_feature. rewrite Ek. apply str_eqb_refl.
    + intros k' v' Hi' Hfv'. pose proof (Hin_group _ _ _ Hi' Hfv').
      congruence.
  - intros f Hin En k v Hi Hfv. pose proof (Hin_group _ _ _ Hi Hfv).
    congruence.
Qed.

End Grouping.

(** The two scenarios of the specification: [A1], [A2], [B1] grouped by
    their first letter, and [7.pdf] skipped for the range [1..2]. *)
Example scan_groups_by_first_letter :
  snd (scan (O := Sample.os) (F := Sample.pdf) (Sample.args true)
            [lit "/d/A1.pdf"; lit "/d/A2.pdf"; lit "/d/B1.pdf"])
  = Ok ([(lit "A", [lit "/d/A1.pdf"; lit "/d/A2.pdf"]);
         (lit "B", [lit "/d/B1.pdf"])], 0).
Proof. reflexivity. Qed.

Example scan_skips_short_name :
  snd (scan (O := Sample.os) (F := Sample.pdf) Sample.args_two_chars
            [lit "/d/7.pdf"; lit "/d/A1.pdf"])
  = Ok ([(lit "A1", [lit "/d/A1.pdf"])], 1).
Proof. reflexivity. Qed.

(** ** Image recompression *)

Section Recompression.
Context {F : Fitz}.
Variables (quality min_bytes : Z) (only_if_smaller : bool).

#[local] Abbreviation body :=
  (recompress_xref quality min_bytes only_if_smaller).

(** The two things one turn of the loop can do. *)
Lemma recompress_xref_cases (doc : Doc) (n xref : Z) :
  body (doc, n) xref = ([], Ok (doc, n))
  \/ exists (ty : str) (orig data : bytes) (doc' : Doc),
       xref_get_key doc xref (lit "Subtype") = Ok (ty, lit "/Image")
       /\ xref_stream doc xref = Ok (Some orig)
       /\ min_bytes <= len orig
       /\ reencoded quality doc xref = Ok data
       /\ (only_if_smaller = true -> len data < len orig)
       /\ update_stream doc xref data = Ok doc'
       /\ body (doc, n) xref = ([UpdateStream xref data], Ok (doc', n + 1)).
Proof.
  unfold recompress_xref, reencoded, decoded.
  destruct (xref_get_key doc xref (lit "Subtype")) as [[ty t]|e]; simpl;
    [|now left].
  destruct (str_eqb t (lit "/Image")) eqn:Et; simpl; [|now left].
  apply str_eqb_eq in Et. subst t.
  destruct (xref_stream doc xref) as [[orig|]|e]; simpl; try now left.
  destruct (Z.ltb_spec (len orig) min_bytes) as [Hlt|Hge]; [now left|].
  destruct (new_pixmap doc xref) as [pix|e]; simpl; [|now left].
  destruct (if 5 <=? pixmap_n pix then pixmap_rgb pix else Ok pix)
    as [pix'|e]; simpl; [|now left].
  destruct (tobytes_jpeg pix' quality) as [data|e]; simpl; [|now left].
  destruct (negb only_if_smaller || (len data <? len orig)) eqn:Ec;
    [|now left].
  destruct (update_stream doc xref data) as [doc'|e] eqn:Eu; [|now left].
  right. exists ty, orig, data, doc'. repeat split; auto.
  intros ->. simpl in Ec. now apply Z.ltb_lt in Ec.
Qed.

Lemma recompress_xref_skips (doc : Doc) (n xref : Z) :
  step_fails quality doc xref -> body (doc, n) xref = ([], Ok (doc, n)).
Proof.
  intros Hf.
  destruct (recompress_xref_cases doc n xref)
    as [E | (ty & orig & data & doc' & Hk & Hs & Hm & Hr & Ho & Hu & E)];
    [exact E|].
  exfalso.
  destruct Hf as [e He | e He | e He | pix e Hp Hn He | e He | d e Hd He];
    unfold reencoded, decoded in *.
  - congruence.
  - rewrite Hs in He. discriminate He.
  - rewrite He in Hr. discriminate Hr.
  - rewrite Hp in Hr. simpl in Hr.
    destruct (Z.leb_spec 5 (pixmap_n pix)); [|lia].
    rewrite He in Hr. discriminate Hr.
  - congruence.
  - congruence.
Qed.

Lemma recompress_xref_replaces (doc doc' : Doc) (n xref : Z) (ty : str)
    (orig data : bytes) :
  xref_get_key doc xref (lit "Subtype") = Ok (ty, lit "/Image") ->
  xref_stream doc xref = Ok (Some orig) ->
  min_bytes <= len orig ->
  reencoded quality doc xref = Ok data ->
  only_if_smaller = false \/ len data < len orig ->
  update_stream doc xref data = Ok doc' ->
  body (doc, n) xref = ([UpdateStream xref data], Ok (doc', n + 1)).
Proof.
  intros Hk Hs Hm Hr Ho Hu. unfold recompress_xref, reencoded, decoded in *.
  rewrite Hk, Hs. simpl.
  destruct (Z.ltb_spec (len orig) min_bytes); [lia|].
  destruct (new_pixmap doc xref) as [pix|e]; simpl in *; [|discriminate].
  destruct (if 5 <=? pixmap_n pix then pixmap_rgb pix else Ok pix)
    as [pix'|e]; simpl in *; [|discriminate].
  rewrite Hr.
  assert (Ec : negb only_if_smaller || (len data <? len orig) = true).
  { destruct Ho as [-> | Hlt]; [reflexivity|].
    apply orb_true_iff. right. now apply Z.ltb_lt. }
  rewrite Ec, Hu. reflexivity.
Qed.

(** The whole loop: it does not raise, it logs nothing but replacements,
    counts them, and leaves the document they produce. *)
Lemma recompress_loop (xs : list Z) (doc : Doc) (n : Z) :
  exists (t : list event) (doc' : Doc),
    for_each xs body (doc, n) = (t, Ok (doc', n + len (updates t)))
    /\ doc' = apply_updates doc (updates t)
    /\ t = map (fun u => UpdateStream (fst u) (snd u)) (updates t).
Proof.
  revert doc n. induction xs as [|x xs IH]; intros doc n.
  - exists [], doc. simpl. unfold ret. now rewrite Z.add_0_r.
  - cbn [for_each].
    destruct (recompress_xref_cases doc n x)
      as [E | (ty & orig & data & doc1 & _ & _ & _ & _ & _ & Hu & E)];
      rewrite E, mbind_ok.
    + destruct (IH doc n) as (t & doc' & Et & Hd & Hm).
      exists t, doc'. rewrite Et. simpl. auto.
    + destruct (IH doc1 (n + 1)) as (t & doc' & Et & Hd & Hm).
      exists (UpdateStream x data :: t), doc'. rewrite Et. simpl.
      rewrite Hu. repeat split; auto.
      * do 2 f_equal. f_equal. unfold len. simpl length. lia.
      * now f_equal.
Qed.

(** Every replacement in the trace of the loop was decided on the document
    as it stood then. *)
Lemma recompress_loop_justified (xs : list Z) (doc : Doc) (n : Z)
    (pre post : list event) (xref : Z) (data : bytes) :
  fst (for_each xs body (doc, n)) = pre ++ UpdateStream xref data :: post ->
  let d := apply_updates doc (updates pre) in
  exists (ty : str) (orig : bytes),
    xref_get_key d xref (lit "Subtype") = Ok (ty, lit "/Image")
    /\ xref_stream d xref = Ok (Some orig)
    /\ min_bytes <= len orig
    /\ reencoded quality d xref = Ok data
    /\ (only_if_smaller = true -> len data < len orig).
Proof.
  revert doc n pre. induction xs as [|x xs IH]; intros doc n pre.
  - simpl. destruct pre; discriminate.
  - cbn [for_each].
    destruct (recompress_xref_cases doc n x)
      as [E | (ty & orig & data1 & doc1 & Hk & Hs & Hm & Hr & Ho & Hu & E)];
      rewrite E, mbind_ok; simpl fst.
    + apply IH.
    + destruct pre as [|e pre]; simpl; intros Et.
      * injection Et as -> -> _. exists ty, orig. auto.
      * injection Et as <- Et. simpl. rewrite Hu. now apply (IH doc1 (n + 1)).
Qed.

End Recompression.

(** The function is the call of [xref_length] followed by the loop. *)
Lemma recompress_images_in_doc_unfold {F : Fitz} (doc : Doc)
    (quality min_kb : Z) (only_if_smaller : bool) :
  recompress_images_in_doc doc quality min_kb only_if_smaller
  = match xref_length doc with
    | Ok n => for_each (range 1 n)
                (recompress_xref quality (min_kb * 1024) only_if_smaller)
                (doc, 0)
    | Raise e => ([], Raise e)
    end.
Proof.
  unfold recompress_images_in_doc, call.
  destruct (xref_length doc) as [n|e]; [|reflexivity].
  rewrite mbind_ok. now destruct (for_each _ _ _).
Qed.

(** Whether or not it raises, the function logs replacements only. *)
Lemma recompress_images_in_doc_trace {F : Fitz} (doc : Doc)
    (quality min_kb : Z) (only_if_smaller : bool) :
  let t := fst (recompress_images_in_doc doc quality min_kb
                                         only_if_smaller) in
  t = map (fun u => UpdateStream (fst u) (snd u)) (updates t).
Proof.
  cbv zeta. rewrite recompress_images_in_doc_unfold.
  destruct (xref_length doc) as [n|e]; [|reflexivity].
  destruct (recompress_loop quality (min_kb * 1024) only_if_smaller
              (range 1 n) doc 0) as (t & d & E & _ & Ht).
  now rewrite E.
Qed.

(** ** Merging one group *)

Section Traces.
Context {F : Fitz}.

Lemma fst_mbind {A B : Type} (m : M A) (k : A -> M B) :
  fst (mbind m k)
  = fst m ++ match snd m with
             | Ok x => fst (k x)
             | Raise _ => []
             end.
Proof.
  destruct m as [t [x|e]]; simpl.
  - now destruct (k x).
  - now rewrite app_nil_r.
Qed.

Lemma snd_mbind {A B : Type} (m : M A) (k : A -> M B) :
  snd (mbind m k)
  = match snd m with
    | Ok x => snd (k x)
    | Raise e => Raise e
    end.
Proof.
  destruct m as [t [x|e]]; simpl; [now destruct (k x) | reflexivity].
Qed.




End Traces.

Section Merge.
Context {U : Unicode} {O : Os} {F : Fitz}.





(** ** The worker *)

(** The worker turns the outcome of its job into a status. *)
Lemma worker_unify_value (out_dir feat : str) (paths : list str)
    (optimize : str) (jr : bool) (jq jm : Z) (js : bool) :
  worker_unify out_dir feat paths optimize jr jq jm js
  = let job :=
      unify_group (os_path_join out_dir (sanitize_feature feat ++ lit ".pdf"))
                  paths optimize jr jq jm js in
    (fst job,
     Ok (feat, len paths,
         match snd job with
         | Ok _ => lit "OK"
         | Raise e => lit "ERROR: " ++ exn_str e
         end)).
Proof.
  cbv zeta. unfold worker_unify.
  destruct (unify_group _ paths optimize jr jq jm js) as [t [[]|e]]; simpl;
    now rewrite app_nil_r.
Qed.

(** C7.  [worker_unify] never raises.  It returns the feature key, the
    number of paths it was given, and a status: ["OK"] when the job (the
    call of [unify_group] on the sanitized destination) ends normally, and
    ["ERROR: "] followed by the message of the exception when the job
    raises one.  Its effects are those of the job. *)
Theorem worker_unify_never_raises (out_dir feat : str) (paths : list str)
    (optimize : str) (jr : bool) (jq jm : Z) (js : bool) :
  let job :=
    unify_group (os_path_join out_dir (sanitize_feature feat ++ lit ".pdf"))
                paths optimize jr jq jm js in
  let res := worker_unify out_dir feat paths optimize jr jq jm js in
  (exists status, snd res = Ok (feat, len paths, status))
  /\ (snd job = Ok tt -> snd res = Ok (feat, len paths, lit "OK"))
  /\ (forall e, snd job = Raise e ->
        snd res = Ok (feat, len paths, lit "ERROR: " ++ exn_str e))
  /\ fst res = fst job.
Proof.
  cbv zeta. rewrite worker_unify_value. cbv zeta. cbn [fst snd].
  split; [eauto|]. split; [intros ->; reflexivity|].
  split; [intros e ->; reflexivity | reflexivity].
Qed.

End Merge.


(** ** The confirmation gate *)

Section Gate.
Context {U : Unicode} {O : Os} {F : Fitz}.

Lemma for_each_trace {A S : Type} (P : event -> Prop) (body : S -> A -> M S)
    (xs : list A) (s : S) :
  (forall s x, Forall P (fst (body s x))) ->
  Forall P (fst (for_each xs body s)).
Proof.
  intros Hb. revert s. induction xs as [|x xs IH]; intros s; simpl.
  - constructor.
  - rewrite fst_mbind. apply Forall_app. split; [apply Hb|].
    destruct (snd (body s x)); [apply IH | constructor].
Qed.

Lemma scan_quiet (a : Args) (pdfs : list str) :
  Forall quiet (fst (scan a pdfs)).
Proof.
  apply for_each_trace. intros [g s] [idx f]. unfold scan_step,
    print_progress. simpl.
  destruct (len pdfs <=? idx); simpl;
    repeat constructor; simpl; discriminate.
Qed.

Lemma approved_iff (resp : str) :
  approved resp = true <-> In resp [lit "s"; lit "S"; lit "y"; lit "Y"].
Proof.
  unfold approved. cbn [existsb In].
  rewrite orb_false_r, orb_true_iff, !str_eqb_eq, lower_is_s, lower_is_y.
  split.
  - intros [[-> | ->] | [-> | ->]]; auto.
  - intros [<- | [<- | [<- | [<- | []]]]]; auto.
Qed.

Lemma approved_false (resp : str) :
  lower resp <> lit "s" -> lower resp <> lit "y" -> approved resp = false.
Proof.
  intros Hs Hy. unfold approved. cbn [existsb].
  assert (E1 : str_eqb (lower resp) (lit "s") = false)
    by now apply str_eqb_neq.
  assert (E2 : str_eqb (lower resp) (lit "y") = false)
    by now apply str_eqb_neq.
  now rewrite E1, E2.
Qed.

Lemma stage2_opens (a : Args) (out_dir : str) (groups : dict)
    (order : list nat) :
  exists t, fst (stage2 a out_dir groups order) = Stdout MsgStage2 :: t.
Proof.
  unfold stage2. rewrite fst_mbind. simpl. eauto.
Qed.

(** C6.  Once the plan is shown (the directory was listed and holds at
    least one PDF), a response whose stripped, lowercased form is neither
    ["s"] nor ["y"] ends the run with exit status 0 and the run has done
    nothing but print: no directory was created, no file saved, no merge
    job started.  Stage 2 is entered exactly when the stripped response is
    one of [s], [S], [y], [Y]. *)
Theorem declined_prompt_aborts (a : Args) (line : str) (order : list nat)
    (pdfs : list str) :
  list_pdfs_flat (os_path_abspath (target_dir a)) = Ok pdfs ->
  pdfs <> [] ->
  (lower (strip line) <> lit "s" /\ lower (strip line) <> lit "y" ->
     snd (main a line order) = SystemExit 0
     /\ forallb is_stdout (fst (main a line order)) = true
     /\ last (fst (main a line order)) CloseDoc = Stdout MsgCancelled)
  /\ (In (Stdout MsgStage2) (fst (main a line order))
      <-> In (strip line) [lit "s"; lit "S"; lit "y"; lit "Y"]).
Proof.
  intros Hl Hne. unfold main. rewrite Hl.
  destruct pdfs as [|f0 pdfs']; [congruence|].
  set (pdfs := f0 :: pdfs') in *.
  pose proof (scan_value a pdfs) as Es.
  destruct (fold_left (group_step a) pdfs ([], 0)) as [groups skipped].
  pose proof (scan_quiet a pdfs) as Hq.
  destruct (scan a pdfs) as [ts r]. simpl in Es, Hq. subst r.
  set (t2 := _ ++ _ ++ [_; Stdout MsgPrompt]).
  assert (Hq2 : Forall quiet (t2 ++ [Stdout MsgCancelled])).
  { unfold t2. repeat (apply Forall_app; split); try exact Hq;
      repeat constructor; simpl; discriminate. }
  split.
  - intros [Hs Hy]. rewrite (approved_false _ Hs Hy). cbn [negb fst snd].
    split; [reflexivity|]. split.
    + apply forallb_forall. intros e He.
      rewrite Forall_forall in Hq2. now apply Hq2.
    + apply last_last.
  - rewrite <- approved_iff.
    destruct (approved (strip line)) eqn:Ea; cbn [negb fst snd].
    + split; [reflexivity|]. intros _.
      destruct (stage2_opens a
                  (os_path_join (os_path_abspath (target_dir a))
                                (out_dir_name a)) groups order) as [t3 E3].
      destruct (stage2 a _ groups order) as [t3' [[]|e]]; cbn [fst] in *;
        subst t3'; apply in_or_app; right; now left.
    + split; [|discriminate]. intros Hin. exfalso.
      rewrite Forall_forall in Hq2. destruct (Hq2 _ Hin) as [_ Hd].
      now apply Hd.
Qed.

End Gate.

Lemma declined_prompt_aborts_witness :
  list_pdfs_flat (O := Sample.os) (lit "/d")
    = Ok [lit "/d/A1.pdf"; lit "/d/A2.pdf"; lit "/d/B1.pdf"]
  /\ lower (strip (lit " no ")) <> lit "s"
  /\ lower (strip (lit " no ")) <> lit "y"
  /\ snd (main (O := Sample.os) (F := Sample.pdf) (Sample.args true)
              (lit " no ") [])
     = SystemExit 0
  /\ forallb is_stdout
       (fst (main (O := Sample.os) (F := Sample.pdf) (Sample.args true)
                  (lit " no ") []))
     = true
  /\ last (fst (main (O := Sample.os) (F := Sample.pdf) (Sample.args true)
                     (lit " no ") []))
          CloseDoc
     = Stdout MsgCancelled.
Proof.
  split; [reflexivity|].
  split; [vm_compute; discriminate|].
  split; [vm_compute; discriminate|].
  apply (declined_prompt_aborts (O := Sample.os) (F := Sample.pdf)
           (Sample.args true) (lit " no ") []
           [lit "/d/A1.pdf"; lit "/d/A2.pdf"; lit "/d/B1.pdf"]).
  - reflexivity.
  - discriminate.
  - split; vm_compute; discriminate.
Defined.

(** ** Reporting the outcome of the jobs *)

Section Reports.
Context {U : Unicode} {O : Os} {F : Fitz}.

(** In the parallel loop the line printed for a job follows its status. *)
Lemma parallel_step_reports_status (total_groups done : Z)
    (t : list event) (feat : str) (count : Z) (status : str) :
  parallel_step total_groups done (t, Ok (feat, count, status))
  = (t ++ fst (print_progress (done + 1) total_groups (lit "[Merge groups]"))
       ++ [Stdout (if str_eqb status (lit "OK") then MsgOK feat count
                   else MsgWarn feat count status)],
     Ok (done + 1)).
Proof.
  unfold parallel_step, print_progress. simpl.
  destruct (total_groups <=? done + 1), (str_eqb status (lit "OK"));
    reflexivity.
Qed.

(** In the serial loop the value returned by the worker is dropped: every
    group is reported with the [OK] line, whatever its status. *)
Lemma serial_step_reports_ok (a : Args) (out_dir : str) (groups : dict)
    (total_groups done : Z) (feat : str) (paths : list str) :
  getitem groups feat = Ok paths ->
  serial_step a out_dir groups total_groups done feat
  = (fst (run_worker a out_dir feat paths)
       ++ fst (print_progress (done + 1) total_groups (lit "[Merge groups]"))
       ++ [Stdout (MsgOK feat (len paths))],
     Ok (done + 1)).
Proof.
  intros Eg. unfold serial_step, call. rewrite Eg. cbn [mbind app].
  unfold run_worker. rewrite worker_unify_value. cbv zeta.
  unfold print_progress. simpl.
  destruct (total_groups <=? done + 1); reflexivity.
Qed.

End Reports.

(** C8 does not hold in serial mode.  On the sample directory the group
    [B] has one source, which cannot be opened, so its worker returns an
    error status.  The run with [--serial] reports the group with the [OK]
    line and prints no warning for it; the same run through the pool
    prints the warning. *)
Theorem serial_mode_reports_failed_group_ok :
  snd (run_worker (O := Sample.os) (F := Sample.pdf) (Sample.args true)
                  (lit "/d/unified_files") (lit "B") [lit "/d/B1.pdf"])
  = Ok (lit "B", 1, lit "ERROR: broken")
  /\ In (Stdout (MsgOK (lit "B") 1))
        (fst (main (O := Sample.os) (F := Sample.pdf) (Sample.args true)
                   (lit "y") []))
  /\ (forall status,
        ~ In (Stdout (MsgWarn (lit "B") 1 status))
             (fst (main (O := Sample.os) (F := Sample.pdf) (Sample.args true)
                        (lit "y") [])))
  /\ In (Stdout (MsgWarn (lit "B") 1 (lit "ERROR: broken")))
        (fst (main (O := Sample.os) (F := Sample.pdf) (Sample.args false)
                   (lit "y") [1%nat; 0%nat])).
Proof.
  split; [reflexivity|]. split; [|split].
  - vm_compute. repeat (first [left; reflexivity | right]).
  - intros status Hin. vm_compute in Hin.
    repeat (destruct Hin as [Hin|Hin]; [discriminate Hin|]). exact Hin.
  - vm_compute. repeat (first [left; reflexivity | right]).
Qed.

(** * Further properties of the script *)

(** ** The checks of [parse_args] *)

Section ParseArgs.
Context {O : Os}.
Variable isdir : str -> bool.

Lemma set_fields_eta (a : Args) :
  set_jpeg_min_kb (set_jobs a (jobs a)) (jpeg_min_kb a) = a.
Proof. now destruct a. Qed.

(** [parse_args] as one case distinction. *)
Lemma parse_args_cases (args : Args) :
  ((p1 args <= 0 \/ p2 args <= 0 \/ p2 args < p1 args
    \/ isdir (os_path_abspath (target_dir args)) = false
    \/ jpeg_quality args < 1 \/ 100 < jpeg_quality args)
   /\ exists msg, parse_args isdir args = Raise (ValueError msg))
  \/ ((1 <= p1 args <= p2 args
       /\ isdir (os_path_abspath (target_dir args)) = true
       /\ 1 <= jpeg_quality args <= 100)
      /\ parse_args isdir args
         = Ok (set_jpeg_min_kb (set_jobs args (Z.max 1 (jobs args)))
                               (Z.max 0 (jpeg_min_kb args)))).
Proof.
  unfold parse_args.
  destruct (Z.leb_spec (p1 args) 0); simpl; [left; split; eauto|].
  destruct (Z.leb_spec (p2 args) 0); simpl; [left; split; eauto|].
  destruct (Z.ltb_spec (p2 args) (p1 args)); simpl; [left; split; eauto|].
  destruct (isdir (os_path_abspath (target_dir args))) eqn:Ed; simpl;
    [|left; split; eauto 6].
  assert (Ej : (if jobs args <? 1 then set_jobs args 1 else args)
               = set_jobs args (Z.max 1 (jobs args))).
  { destruct (Z.ltb_spec (jobs args) 1).
    - now rewrite Z.max_l by lia.
    - rewrite Z.max_r by lia. now destruct args. }
  rewrite Ej. cbn [set_jobs jpeg_quality jpeg_min_kb].
  destruct (Z.ltb_spec (jpeg_quality args) 1); simpl;
    [left; split; eauto 7|].
  destruct (Z.ltb_spec 100 (jpeg_quality args)); simpl;
    [left; split; eauto 8|].
  right. split; [repeat split; lia || reflexivity|]. f_equal.
  destruct (Z.ltb_spec (jpeg_min_kb args) 0).
  - now rewrite (Z.max_l 0) by lia.
  - rewrite (Z.max_r 0) by lia. now destruct args.
Qed.

(** X1.  What [parse_args] returns is a checked configuration: the range
    is [1 <= p1 <= p2], the target is a directory, the quality is within
    [1..100], [jobs] is the parsed value raised to at least 1 and
    [jpeg_min_kb] the parsed value raised to at least 0; no other field is
    touched. *)
Theorem parse_args_postcondition (args a : Args) :
  parse_args isdir args = Ok a ->
  1 <= p1 a <= p2 a
  /\ isdir (os_path_abspath (target_dir a)) = true
  /\ 1 <= jpeg_quality a <= 100
  /\ jobs a = Z.max 1 (jobs args)
  /\ jpeg_min_kb a = Z.max 0 (jpeg_min_kb args)
  /\ a = set_jpeg_min_kb (set_jobs args (jobs a)) (jpeg_min_kb a).
Proof.
  intros E.
  destruct (parse_args_cases args)
    as [[_ [msg Er]] | [(Hp & Hd & Hq) Eo]]; [congruence|].
  rewrite Eo in E. injection E as <-. cbn.
  repeat split; try reflexivity; try lia; assumption.
Qed.

(** X2.  [parse_args] raises, and then a [ValueError], exactly when a
    position is not positive, the range is reversed, the target is not a
    directory, or the quality is outside [1..100].  A [jobs] below 1 or a
    negative [jpeg_min_kb] is never an error. *)
Theorem parse_args_error_iff (args : Args) :
  ((exists e, parse_args isdir args = Raise e)
   <-> (p1 args <= 0 \/ p2 args <= 0 \/ p2 args < p1 args
        \/ isdir (os_path_abspath (target_dir args)) = false
        \/ jpeg_quality args < 1 \/ 100 < jpeg_quality args))
  /\ (forall e, parse_args isdir args = Raise e ->
        exn_type e = lit "ValueError").
Proof.
  destruct (parse_args_cases args)
    as [[Hb [msg Er]] | [(Hp & Hd & Hq) Eo]].
  - split.
    + split; [intros _; exact Hb | eauto].
    + intros e E. rewrite Er in E. now injection E as <-.
  - split; [|intros e E; congruence]. split.
    + intros [e E]. congruence.
    + intros [?|[?|[?|[?|[?|?]]]]]; try lia. congruence.
Qed.

(** X3.  Checking a checked configuration changes nothing: [parse_args]
    accepts what it returned and returns it as it is. *)
Theorem parse_args_idempotent (args a : Args) :
  parse_args isdir args = Ok a -> parse_args isdir a = Ok a.
Proof.
  intros E.
  destruct (parse_args_cases args)
    as [[_ [msg Er]] | [(Hp & Hd & Hq) Eo]]; [congruence|].
  rewrite Eo in E. injection E as <-.
  destruct (parse_args_cases
              (set_jpeg_min_kb (set_jobs args (Z.max 1 (jobs args)))
                               (Z.max 0 (jpeg_min_kb args))))
    as [[Hb' _] | [_ Eo']].
  - cbn in Hb'. destruct Hb' as [?|[?|[?|[?|[?|?]]]]]; try lia. congruence.
  - rewrite Eo'. cbn. f_equal. unfold set_jpeg_min_kb, set_jobs. cbn.
    f_equal; lia.
Qed.

End ParseArgs.

Lemma parse_args_postcondition_witness :
  parse_args (O := Sample.os) (fun _ => true) (Sample.args true)
    = Ok (Sample.args true)
  /\ 1 <= p1 (Sample.args true) <= p2 (Sample.args true)
  /\ 1 <= jpeg_quality (Sample.args true) <= 100.
Proof.
  split; [reflexivity|].
  destruct (parse_args_postcondition (O := Sample.os) (fun _ => true)
              (Sample.args true) (Sample.args true) eq_refl)
    as (Hp & _ & Hq & _).
  split; assumption.
Defined.

Lemma parse_args_idempotent_witness :
  parse_args (O := Sample.os) (fun _ => true)
             (set_jobs (Sample.args true) (-3))
    = Ok (set_jobs (Sample.args true) 1)
  /\ parse_args (O := Sample.os) (fun _ => true) (set_jobs (Sample.args true) 1)
     = Ok (set_jobs (Sample.args true) 1).
Proof.
  split; [reflexivity|].
  apply (parse_args_idempotent (O := Sample.os) (fun _ => true)
           (set_jobs (Sample.args true) (-3))).
  reflexivity.
Defined.

(** ** Filters, keys and file names *)

Section MoreFeatureProperties.
Context {U : Unicode}.

Lemma filter_idempotent {A : Type} (p : A -> bool) (l : list A) :
  filter p (filter p l) = filter p l.
Proof.
  induction l as [|x l IH]; simpl; [reflexivity|].
  destruct (p x) eqn:E; simpl; [rewrite E; now f_equal | exact IH].
Qed.

Lemma filter_len {A : Type} (p : A -> bool) (l : list A) :
  len (filter p l) <= len l.
Proof.
  unfold len. pose proof (filter_length_le p l). lia.
Qed.

Lemma apply_filter_len (s mode : str) : len (apply_filter s mode) <= len s.
Proof.
  unfold apply_filter.
  destruct (str_eqb mode (lit "digits")); [apply filter_len|].
  destruct (str_eqb mode (lit "letters")); [apply filter_len|].
  destruct (str_eqb mode (lit "alnum")); [apply filter_len | lia].
Qed.

(** X4.  Filtering twice with the same mode is filtering once, a filter
    never lengthens a string, and every mode other than [digits],
    [letters] and [alnum] leaves the string as it is. *)
Theorem apply_filter_idempotent (s mode : str) :
  apply_filter (apply_filter s mode) mode = apply_filter s mode
  /\ len (apply_filter s mode) <= len s
  /\ (mode <> lit "digits" -> mode <> lit "letters" -> mode <> lit "alnum" ->
      apply_filter s mode = s).
Proof.
  split; [|split; [apply apply_filter_len|]].
  - unfold apply_filter.
    destruct (str_eqb mode (lit "digits")); [apply filter_idempotent|].
    destruct (str_eqb mode (lit "letters")); [apply filter_idempotent|].
    destruct (str_eqb mode (lit "alnum")); [apply filter_idempotent|].
    reflexivity.
  - intros Hd Hl Ha. unfold apply_filter.
    apply str_eqb_neq in Hd, Hl, Ha. now rewrite Hd, Hl, Ha.
Qed.

Lemma slice_len_positive {A : Type} (s : list A) (a b : Z) :
  0 <= a -> 1 <= b <= len s -> len (slice s a b) = Z.max 0 (b - a).
Proof.
  intros Ha Hb. unfold slice, clamp.
  destruct (Z.ltb_spec a 0), (Z.ltb_spec b 0); try lia.
  unfold len in *. rewrite length_firstn, length_skipn. lia.
Qed.

(** X5.  For positive positions, a key that [compute_feature] returns has
    at most [p2 - p1 + 1] characters; when the range is reversed
    ([p2 < p1], which [parse_args] rejects) the key is the empty string,
    and its file name is the placeholder. *)
Theorem compute_feature_key_bound (name : str) (p1 p2 : Z)
    (index_on index_filter emit_scope key base : str) :
  1 <= p1 -> 1 <= p2 ->
  compute_feature name p1 p2 index_on index_filter emit_scope
    = Ok (key, base) ->
  len key <= Z.max 0 (p2 - p1 + 1)
  /\ (p2 < p1 -> key = [] /\ sanitize_feature key = lit "feature").
Proof.
  intros H1 H2. rewrite compute_feature_unfold. cbv zeta.
  destruct (Z.ltb_spec (len (basis_of name index_on index_filter)) p2);
    [discriminate|].
  intros E. injection E as Ek _.
  set (sl := slice (basis_of name index_on index_filter) (p1 - 1) p2) in *.
  assert (Hs : len sl = Z.max 0 (p2 - p1 + 1)).
  { unfold sl. rewrite slice_len_positive by lia. f_equal. lia. }
  assert (Hk : len key <= len sl).
  { subst key. destruct (str_eqb (apply_filter sl emit_scope) []);
      [lia | apply apply_filter_len]. }
  split; [lia|]. intros Hr.
  assert (Hnil : key = []).
  { rewrite Hs, Z.max_l in Hk by lia. destruct key; [reflexivity|].
    unfold len in Hk. simpl in Hk. lia. }
  split; [exact Hnil|]. rewrite Hnil. reflexivity.
Qed.

Lemma sanitize_char_safe (ch : char) :
  sanitize_char (sanitize_char ch) = sanitize_char ch.
Proof.
  unfold sanitize_char.
  destruct (isalnum ch || (ch =? 45)%N || (ch =? 95)%N) eqn:E.
  - now rewrite E.
  - now destruct (isalnum 95%N || (95 =? 45)%N || (95 =? 95)%N).
Qed.

Lemma sanitize_feature_nonempty (name : str) :
  name <> [] -> sanitize_feature name = map sanitize_char name.
Proof.
  intros Hn. unfold sanitize_feature. cbv zeta. rewrite sanitize_loop.
  destruct name; [congruence | reflexivity].
Qed.

(** X6.  On a non-empty name the sanitizer is idempotent.  So a name that
    holds a character other than an alphanumeric one, a hyphen or an
    underscore differs from its sanitized form and still gets the same
    file name: two distinct keys can name one output. *)
Theorem sanitize_feature_idempotent (name : str) :
  name <> [] ->
  sanitize_feature (sanitize_feature name) = sanitize_feature name
  /\ (forall ch, In ch name -> isalnum ch = false -> ch <> 45%N ->
        ch <> 95%N -> sanitize_feature name <> name).
Proof.
  intros Hn. rewrite (sanitize_feature_nonempty name Hn). split.
  - rewrite sanitize_feature_nonempty by (destruct name; [congruence|discriminate]).
    rewrite map_map. apply map_ext. apply sanitize_char_safe.
  - intros ch Hin Ha H45 H95 E.
    assert (Hc : sanitize_char ch = ch).
    { clear Hn. induction name as [|x name IH]; [contradiction|].
      simpl in E. injection E as Ex En. destruct Hin as [-> | Hin]; auto. }
    unfold sanitize_char in Hc. rewrite Ha in Hc.
    apply N.eqb_neq in H45, H95. rewrite H45, H95 in Hc. simpl in Hc.
    apply N.eqb_neq in H95. congruence.
Qed.

End MoreFeatureProperties.

Lemma compute_feature_key_bound_witness :
  compute_feature (lit "A1") 2 1 (lit "original") (lit "digits") (lit "all")
    = Ok ([], lit "A1")
  /\ len (@nil char) <= Z.max 0 (1 - 2 + 1)
  /\ sanitize_feature (@nil char) = lit "feature".
Proof.
  split; [reflexivity|].
  destruct (compute_feature_key_bound (lit "A1") 2 1 (lit "original")
              (lit "digits") (lit "all") [] (lit "A1"))
    as [Hb Hr]; [lia | lia | reflexivity |].
  split; [exact Hb|]. apply Hr. lia.
Defined.

Lemma sanitize_feature_idempotent_witness :
  sanitize_feature (sanitize_feature (lit "a b")) = sanitize_feature (lit "a b")
  /\ sanitize_feature (lit "a b") <> lit "a b".
Proof.
  destruct (sanitize_feature_idempotent (lit "a b")) as [Hi Hc];
    [discriminate|].
  split; [exact Hi|].
  apply (Hc 32%N); [right; now left | reflexivity | discriminate | discriminate].
Defined.

(** ** The dictionary of groups *)

(** X7.  After [groups.setdefault(feat, []).append(f)], looking up [feat]
    gives the list it had (none if it was absent) with [f] at the end, and
    looking up any other key gives what it gave before; in the empty
    dictionary every lookup raises [KeyError]. *)
Theorem getitem_setdefault_append (groups : dict) (feat f k : str) :
  getitem (setdefault_append groups feat f) k
  = (if str_eqb k feat then Ok (group_of groups feat ++ [f])
     else getitem groups k)
  /\ getitem [] k = Raise (mk_exn (lit "KeyError") k).
Proof.
  split; [|reflexivity]. unfold group_of.
  induction groups as [|[k0 v0] groups IH]; simpl.
  - rewrite (str_eqb_sym feat k). now destruct (str_eqb k feat).
  - destruct (str_eqb k0 feat) eqn:E0; simpl.
    + apply str_eqb_eq in E0. subst k0. rewrite (str_eqb_sym feat k).
      now destruct (str_eqb k feat).
    + destruct (str_eqb k0 k) eqn:E1.
      * apply str_eqb_eq in E1. subst k0.
        now rewrite E0.
      * exact IH.
Qed.

(** ** Discovery and the plan *)

Section Discovery.
Context {U : Unicode} {O : Os} {F : Fitz}.

Lemma sorted_In (l : list str) (x : str) : In x (sorted l) <-> In x l.
Proof.
  split; apply Permutation_in;
    [apply Permutation_sym|]; apply sorted_perm.
Qed.

(** X8.  [list_pdfs_flat] raises what [os.listdir] raises.  Otherwise it
    returns, in non-decreasing order, the joined paths of exactly those
    entries that are files and whose lowercased name ends with [.pdf]. *)
Theorem list_pdfs_flat_spec (dir_path : str) :
  (forall e, os_listdir dir_path = Raise e ->
     list_pdfs_flat dir_path = Raise e)
  /\ (forall names, os_listdir dir_path = Ok names ->
        exists pdfs,
          list_pdfs_flat dir_path = Ok pdfs
          /\ StronglySorted (fun x y => str_leb x y = true) pdfs
          /\ len pdfs <= len names
          /\ forall p, In p pdfs <->
               exists name, In name names
                            /\ p = os_path_join dir_path name
                            /\ os_path_isfile p = true
                            /\ endswith (lower name) (lit ".pdf") = true).
Proof.
  unfold list_pdfs_flat. split.
  - intros e ->. reflexivity.
  - intros names ->. simpl. eexists. split; [reflexivity|].
    split; [apply sorted_ordered|]. split.
    + unfold len. rewrite <- (Permutation_length (sorted_perm _)).
      induction names as [|n names IH]; simpl; [lia|].
      rewrite length_app.
      destruct (os_path_isfile _ && endswith _ _); simpl in *; lia.
    + intros p. rewrite sorted_In, in_flat_map. split.
      * intros [name [Hin Hp]]. exists name. split; [exact Hin|].
        destruct (os_path_isfile (os_path_join dir_path name)) eqn:Ef;
          [|contradiction].
        destruct (endswith (lower name) (lit ".pdf")) eqn:Ee;
          [|contradiction].
        destruct Hp as [<- | []]. auto.
      * intros [name (Hin & -> & Hf & He)]. exists name.
        split; [exact Hin|]. rewrite Hf, He. now left.
Qed.

(** X9.  When the target directory lists no file whose lowercased name
    ends with [.pdf], [main] prints its header and the error line and
    exits with status 1; nothing else happens, whatever would have been
    typed at the prompt. *)
Theorem main_without_pdfs (a : Args) (line : str) (order : list nat)
    (names : list str) :
  os_listdir (os_path_abspath (target_dir a)) = Ok names ->
  (forall name, In name names ->
     os_path_isfile (os_path_join (os_path_abspath (target_dir a)) name)
     && endswith (lower name) (lit ".pdf") = false) ->
  main a line order
  = ([Stdout (MsgInfo (os_path_abspath (target_dir a))
                      (os_path_join (os_path_abspath (target_dir a))
                                    (out_dir_name a)) a);
      Stdout MsgNoPdfs],
     SystemExit 1).
Proof.
  intros El Hn. unfold main, list_pdfs_flat. rewrite El. simpl.
  replace (flat_map _ names) with (@nil str); [reflexivity|].
  symmetry. clear El. induction names as [|n names IH]; simpl;
    [reflexivity|].
  rewrite (Hn n) by now left. apply IH. intros name Hin. apply Hn.
  now right.
Qed.

Lemma compute_feature_ok_nonempty (name : str) (p1 p2 : Z)
    (index_on index_filter emit_scope key base : str) :
  1 <= p1 <= p2 ->
  compute_feature name p1 p2 index_on index_filter emit_scope
    = Ok (key, base) ->
  key <> [].
Proof.
  intros Hp. rewrite compute_feature_unfold. cbv zeta.
  destruct (Z.ltb_spec (len (basis_of name index_on index_filter)) p2);
    [discriminate|].
  intros E. injection E as Ek _.
  assert (Hl : len (slice (basis_of name index_on index_filter) (p1 - 1) p2)
               = p2 - (p1 - 1)) by (apply slice_length; lia).
  destruct (str_eqb (apply_filter _ emit_scope) []) eqn:Ef; subst key.
  - intros Hs. rewrite Hs in Hl. unfold len at 1 in Hl. simpl in Hl. lia.
  - now apply str_eqb_neq.
Qed.

(** What the loop of stage 1 leaves, from its invariant. *)
Lemma scan_grouped (a : Args) (pdfs : list str) (groups : dict)
    (skipped : Z) :
  snd (scan a pdfs) = Ok (groups, skipped) ->
  grouped a pdfs (groups, skipped).
Proof.
  rewrite scan_value. intros E. injection E as E.
  pose proof (grouped_fold a pdfs [] ([], 0) (grouped_start a)) as Hg.
  now rewrite E in Hg.
Qed.

(** X10.  With a checked range ([1 <= p1 <= p2]) every key of the plan is
    non-empty, so the file name of every group is its key mapped character
    by character: the placeholder name is never used. *)
Theorem scan_keys_nonempty (a : Args) (pdfs : list str) (groups : dict)
    (skipped : Z) :
  1 <= p1 a <= p2 a ->
  snd (scan a pdfs) = Ok (groups, skipped) ->
  forall k v, In (k, v) groups ->
    k <> [] /\ sanitize_feature k = map sanitize_char k.
Proof.
  intros Hp Es k v Hin.
  destruct (g_members _ _ _ (scan_grouped _ _ _ _ Es) k v Hin) as [Ev Hv].
  assert (Hk : k <> []).
  { destruct v as [|f v']; [congruence|].
    assert (Hf : In f (filter (has_feature a k) pdfs))
      by (rewrite <- Ev; now left).
    apply filter_In in Hf. destruct Hf as [_ Hf].
    unfold has_feature, feature_of in Hf.
    destruct (compute_feature _ _ _ _ _ _) as [[feat base]|e] eqn:Ec;
      [|discriminate].
    apply str_eqb_eq in Hf. subst feat.
    eapply compute_feature_ok_nonempty; eauto. }
  split; [exact Hk | now apply sanitize_feature_nonempty].
Qed.

Lemma sorted_fixpoint (l : list str) :
  StronglySorted (fun x y => str_leb x y = true) l -> sorted l = l.
Proof.
  induction 1 as [|x l Hs IH Hx]; simpl; [reflexivity|].
  rewrite IH. destruct l as [|y l']; [reflexivity|]. simpl.
  inversion Hx as [|? ? Hxy _]; subst. unfold str_leb in Hxy.
  apply negb_true_iff in Hxy. now rewrite Hxy.
Qed.

Lemma StronglySorted_filter {A : Type} (R : A -> A -> Prop) (p : A -> bool)
    (l : list A) :
  StronglySorted R l -> StronglySorted R (filter p l).
Proof.
  induction 1 as [|x l Hs IH Hx]; simpl; [constructor|].
  destruct (p x); [|exact IH]. constructor; [exact IH|].
  rewrite Forall_forall in *. intros y Hy. apply Hx.
  now apply filter_In in Hy.
Qed.

(** X11.  The documents are discovered in sorted order and a group keeps
    the order of discovery, so every group of the plan is sorted already:
    the sort at the head of [unify_group] leaves it as it is, and the merge
    order of a group is its discovery order. *)
Theorem groups_are_sorted (a : Args) (dir_path : str) (pdfs : list str)
    (groups : dict) (skipped : Z) :
  list_pdfs_flat dir_path = Ok pdfs ->
  snd (scan a pdfs) = Ok (groups, skipped) ->
  forall k v, In (k, v) groups ->
    StronglySorted (fun x y => str_leb x y = true) v /\ sorted v = v.
Proof.
  intros El Es k v Hin.
  assert (Hs : StronglySorted (fun x y => str_leb x y = true) pdfs).
  { unfold list_pdfs_flat in El.
    destruct (os_listdir dir_path) as [names|e]; [|discriminate].
    simpl in El. injection El as <-. apply sorted_ordered. }
  destruct (g_members _ _ _ (scan_grouped _ _ _ _ Es) k v Hin) as [-> _].
  assert (Hf := StronglySorted_filter _ (has_feature a k) _ Hs).
  split; [exact Hf | now apply sorted_fixpoint].
Qed.

End Discovery.

Lemma main_without_pdfs_witness :
  main (O := PosixPath.os (lit "/d") [lit "notes.txt"]) (F := Sample.pdf)
       (Sample.args true) (lit "y") []
  = ([Stdout (MsgInfo (lit "/d") (lit "/d/unified_files") (Sample.args true));
      Stdout MsgNoPdfs],
     SystemExit 1).
Proof.
  apply (main_without_pdfs (O := PosixPath.os (lit "/d") [lit "notes.txt"])
           (F := Sample.pdf) (Sample.args true) (lit "y") []
           [lit "notes.txt"]).
  - reflexivity.
  - intros name [<- | []]. reflexivity.
Defined.

Lemma scan_keys_nonempty_witness :
  lit "A" <> [] /\ sanitize_feature (lit "A") = map sanitize_char (lit "A").
Proof.
  apply (scan_keys_nonempty (O := Sample.os) (F := Sample.pdf)
           (Sample.args true)
           [lit "/d/A1.pdf"; lit "/d/A2.pdf"; lit "/d/B1.pdf"]
           [(lit "A", [lit "/d/A1.pdf"; lit "/d/A2.pdf"]);
            (lit "B", [lit "/d/B1.pdf"])] 0)
    with (v := [lit "/d/A1.pdf"; lit "/d/A2.pdf"]).
  - simpl. lia.
  - reflexivity.
  - now left.
Defined.

Lemma groups_are_sorted_witness :
  StronglySorted (fun x y => str_leb x y = true)
                 [lit "/d/A1.pdf"; lit "/d/A2.pdf"]
  /\ sorted [lit "/d/A1.pdf"; lit "/d/A2.pdf"]
     = [lit "/d/A1.pdf"; lit "/d/A2.pdf"].
Proof.
  apply (groups_are_sorted (O := Sample.os) (F := Sample.pdf)
           (Sample.args true) (lit "/d")
           [lit "/d/A1.pdf"; lit "/d/A2.pdf"; lit "/d/B1.pdf"]
           [(lit "A", [lit "/d/A1.pdf"; lit "/d/A2.pdf"]);
            (lit "B", [lit "/d/B1.pdf"])] 0)
    with (k := lit "A").
  - reflexivity.
  - reflexivity.
  - now left.
Defined.

(** ** The objects visited by the recompression *)

Lemma range_bounds (a b : Z) : Forall (fun x => a <= x < b) (range a b).
Proof.
  unfold range. apply Forall_forall. intros x Hx.
  apply in_map_iff in Hx. destruct Hx as [k [<- Hk]].
  apply in_seq in Hk. lia.
Qed.

Lemma range_increasing_from (a : Z) (s n : nat) :
  StronglySorted Z.lt (map (fun k => a + Z.of_nat k) (seq s n)).
Proof.
  revert s. induction n as [|n IH]; intros s; simpl; constructor.
  - apply IH.
  - apply Forall_forall. intros x Hx. apply in_map_iff in Hx.
    destruct Hx as [k [<- Hk]]. apply in_seq in Hk. lia.
Qed.

Lemma range_increasing (a b : Z) : StronglySorted Z.lt (range a b).
Proof. apply range_increasing_from. Qed.

Lemma range_len (a b : Z) : len (range a b) = Z.max 0 (b - a).
Proof. unfold range, len. rewrite length_map, length_seq. lia. Qed.

Section Visits.
Context {F : Fitz}.
Variables (quality min_bytes : Z) (only_if_smaller : bool).

Lemma recompress_loop_visits (xs : list Z) (doc : Doc) (n : Z) :
  let t := fst (for_each xs
                  (recompress_xref quality min_bytes only_if_smaller)
                  (doc, n)) in
  Forall (fun x => In x xs) (map fst (updates t))
  /\ (StronglySorted Z.lt xs -> StronglySorted Z.lt (map fst (updates t)))
  /\ len (updates t) <= len xs.
Proof.
  cbv zeta. revert doc n. induction xs as [|x xs IH]; intros doc n.
  - simpl. repeat split; try constructor. unfold len. simpl. lia.
  - cbn [for_each].
    destruct (recompress_xref_cases quality min_bytes only_if_smaller
                doc n x)
      as [E | (ty & orig & data & doc1 & _ & _ & _ & _ & _ & _ & E)];
      rewrite E, mbind_ok; cbn [fst app].
    + destruct (IH doc n) as (Hin & Hs & Hl). split; [|split].
      * eapply Forall_impl; [|exact Hin]. intros y Hy. now right.
      * intros Hx. inversion Hx; subst. now apply Hs.
      * unfold len in *. simpl length. lia.
    + destruct (IH doc1 (n + 1)) as (Hin & Hs & Hl). simpl.
      split; [|split].
      * constructor; [now left|].
        eapply Forall_impl; [|exact Hin]. intros y Hy. now right.
      * intros Hx. inversion Hx as [|? ? Hx' Hlt]; subst.
        constructor; [now apply Hs|].
        rewrite Forall_forall in *. intros y Hy. apply Hlt. now apply Hin.
      * unfold len in *. simpl length. lia.
Qed.

End Visits.

(** X12.  When [doc.xref_length()] returns [n], [recompress_images_in_doc]
    visits the objects [1] to [n - 1] in increasing order and replaces the
    stream of each at most once: the replaced objects are in that range,
    in strictly increasing order, and the returned count is between 0 and
    the number of objects visited; a document with no object besides
    number 0 is returned as it is.  When that call raises, the function
    raises the same exception and has done nothing. *)
Theorem recompress_replaces_each_once {F : Fitz} (doc : Doc)
    (quality min_kb : Z) (only_if_smaller : bool) :
  let r := recompress_images_in_doc doc quality min_kb only_if_smaller in
  (forall n, xref_length doc = Ok n ->
     Forall (fun x => 1 <= x < n) (map fst (updates (fst r)))
     /\ (exists d k, snd r = Ok (d, k) /\ 0 <= k <= Z.max 0 (n - 1))
     /\ (n <= 1 -> r = ([], Ok (doc, 0))))
  /\ StronglySorted Z.lt (map fst (updates (fst r)))
  /\ (forall e, xref_length doc = Raise e -> r = ([], Raise e)).
Proof.
  cbv zeta. rewrite recompress_images_in_doc_unfold.
  destruct (xref_length doc) as [n|e].
  - destruct (recompress_loop_visits quality (min_kb * 1024) only_if_smaller
                (range 1 n) doc 0) as (Hin & Hs & Hl).
    destruct (recompress_loop quality (min_kb * 1024) only_if_smaller
                (range 1 n) doc 0) as (t & d & E & _ & _).
    split; [|split; [apply Hs, range_increasing | discriminate]].
    intros n' En. injection En as <-. rewrite E in *. cbn [fst snd] in *.
    split; [|split].
    + pose proof (range_bounds 1 n) as Hr.
      rewrite Forall_forall in *. intros x Hx. apply Hr. now apply Hin.
    + exists d, (0 + len (updates t)). split; [reflexivity|].
      rewrite range_len in Hl. unfold len in *. lia.
    + intros Hx. unfold range in E.
      replace (Z.to_nat (n - 1)) with 0%nat in E by lia.
      simpl in E. unfold ret in E. now rewrite E.
  - split; [discriminate|]. split; [constructor|].
    intros e' E. now injection E as <-.
Qed.

(** ** The turn of one object within the whole loop *)

Lemma range_cons (a b : Z) : a < b -> range a b = a :: range (a + 1) b.
Proof.
  intros H. unfold range.
  replace (Z.to_nat (b - a)) with (S (Z.to_nat (b - (a + 1)))) by lia.
  cbn [seq map]. f_equal; [lia|].
  rewrite <- seq_shift, map_map. apply map_ext. intros k. lia.
Qed.

Lemma range_split_from (m : nat) (a x b : Z) :
  Z.to_nat (x - a) = m -> a <= x < b ->
  range a b = range a x ++ x :: range (x + 1) b.
Proof.
  revert a. induction m as [|m IH]; intros a Hm Hx.
  - assert (x = a) by lia. subst x. unfold range at 2.
    rewrite Z.sub_diag. simpl. apply range_cons. lia.
  - rewrite (range_cons a b), (range_cons a x) by lia. simpl. f_equal.
    apply IH; lia.
Qed.

Lemma range_split (a x b : Z) :
  a <= x < b -> range a b = range a x ++ x :: range (x + 1) b.
Proof. now apply (range_split_from (Z.to_nat (x - a))). Qed.

Lemma filter_all {A : Type} (p : A -> bool) (l : list A) :
  Forall (fun y => p y = true) l -> filter p l = l.
Proof.
  induction 1 as [|y l Hy _ IH]; simpl; [reflexivity|]. now rewrite Hy, IH.
Qed.

Lemma filter_none {A : Type} (p : A -> bool) (l : list A) :
  Forall (fun y => p y = false) l -> filter p l = [].
Proof.
  induction 1 as [|y l Hy _ IH]; simpl; [reflexivity|]. now rewrite Hy.
Qed.

Section Reached.
Context {F : Fitz}.
Variables (quality min_bytes : Z) (only_if_smaller : bool).

#[local] Abbreviation turn :=
  (recompress_xref quality min_bytes only_if_smaller).

Lemma for_each_app {A S : Type} (body : S -> A -> M S) (xs ys : list A)
    (s : S) :
  for_each (xs ++ ys) body s = mbind (for_each xs body s) (for_each ys body).
Proof.
  revert s. induction xs as [|x xs IH]; intros s; simpl.
  - now destruct (for_each ys body s).
  - destruct (body s x) as [t [s'|e]]; simpl; [|reflexivity].
    rewrite IH. destruct (for_each xs body s') as [t1 [s1|e1]]; simpl.
    + destruct (for_each ys body s1). now rewrite app_assoc.
    + reflexivity.
Qed.

Lemma updates_app (t1 t2 : list event) :
  updates (t1 ++ t2) = updates t1 ++ updates t2.
Proof. apply flat_map_app. Qed.

Lemma In_update (t : list event) (x : Z) (data : bytes) :
  In (UpdateStream x data) t -> In x (map fst (updates t)).
Proof.
  induction t as [|e t IH]; [contradiction|].
  intros [-> | Hin]; simpl; [now left|].
  rewrite map_app. apply in_or_app. right. now apply IH.
Qed.

(** The trace of one turn does not depend on the count so far. *)
Lemma turn_trace (doc : Doc) (n n' xref : Z) :
  fst (turn (doc, n) xref) = fst (turn (doc, n') xref).
Proof.
  destruct (recompress_xref_cases quality min_bytes only_if_smaller
              doc n xref)
    as [E | (ty & orig & data & d1 & Hk & Hs & Hm & Hr & Ho & Hu & E)];
    rewrite E.
  - destruct (recompress_xref_cases quality min_bytes only_if_smaller
                doc n' xref)
      as [E' | (ty' & orig' & data' & d1' & _ & Hs' & _ & Hr' & _ & Hu' & E')];
      rewrite E'; [reflexivity|].
    assert (Hrep := recompress_xref_replaces quality min_bytes
                      only_if_smaller doc d1' n xref).
    exfalso.
    destruct (recompress_xref_cases quality min_bytes only_if_smaller
                doc n' xref)
      as [E2 | (ty2 & orig2 & data2 & d2 & Hk2 & Hs2 & Hm2 & Hr2 & Ho2 & Hu2 & _)];
      [congruence|].
    specialize (Hrep ty2 orig2 data2 Hk2 Hs2 Hm2 Hr2).
    assert (Hc : only_if_smaller = false \/ len data2 < len orig2).
    { destruct only_if_smaller; [right; now apply Ho2 | now left]. }
    assert (d2 = d1') by congruence. subst d2.
    rewrite (Hrep Hc Hu2) in E. discriminate E.
  - rewrite (recompress_xref_replaces quality min_bytes only_if_smaller
               doc d1 n' xref ty orig data Hk Hs Hm Hr); [reflexivity| |exact Hu].
    destruct only_if_smaller; [right; now apply Ho | now left].
Qed.

(** Within a loop over increasing objects, the turn of [x] runs on the
    document left by the replacements of the objects before it, and it is
    the only turn that can replace the stream of [x]. *)
Lemma loop_reached (xs1 xs2 : list Z) (x : Z) (doc : Doc) (n0 : Z) :
  Forall (fun y => y < x) xs1 -> Forall (fun y => x < y) xs2 ->
  let t := fst (for_each (xs1 ++ x :: xs2) turn (doc, n0)) in
  forall data,
    In (UpdateStream x data) t
    <-> fst (turn (doc_when_reached doc t x, 0) x) = [UpdateStream x data].
Proof.
  intros H1 H2. cbv zeta. rewrite for_each_app.
  destruct (recompress_loop quality min_bytes only_if_smaller xs1 doc n0)
    as (t1 & d1 & E1 & Hd1 & _).
  destruct (recompress_loop_visits quality min_bytes only_if_smaller
              xs1 doc n0) as (Hin1 & _ & _).
  rewrite E1 in *. cbn [fst] in Hin1. rewrite mbind_ok. cbn [fst for_each].
  set (n1 := n0 + len (updates t1)) in *.
  assert (Hx : exists tx s2,
             turn (d1, n1) x = (tx, Ok s2)
             /\ (tx = [] \/ exists data, tx = [UpdateStream x data])).
  { destruct (recompress_xref_cases quality min_bytes only_if_smaller
                d1 n1 x)
      as [E | (ty & orig & data & d2 & _ & _ & _ & _ & _ & _ & E)];
      rewrite E; eauto 6. }
  destruct Hx as (tx & [d2 n2] & Ex & Htx).
  rewrite Ex, mbind_ok. cbn [fst].
  destruct (recompress_loop_visits quality min_bytes only_if_smaller
              xs2 d2 n2) as (Hin2 & _ & _).
  set (t2 := fst (for_each xs2 turn (d2, n2))) in *.
  assert (Hb : filter (fun u => fst u <? x) (updates (t1 ++ tx ++ t2))
               = updates t1).
  { rewrite !updates_app, !filter_app.
    rewrite (filter_all _ (updates t1)), (filter_none _ (updates t2)).
    - destruct Htx as [-> | [data ->]]; simpl;
        [|rewrite Z.ltb_irrefl]; now rewrite app_nil_r.
    - rewrite Forall_forall in *. intros u Hu. apply Z.ltb_ge.
      assert (Hu2 : In (fst u) xs2) by (apply Hin2; now apply in_map).
      specialize (H2 (fst u) Hu2). lia.
    - rewrite Forall_forall in *. intros u Hu. apply Z.ltb_lt.
      apply H1, Hin1. now apply in_map. }
  unfold doc_when_reached. rewrite Hb, <- Hd1.
  rewrite (turn_trace d1 0 n1 x), Ex. cbn [fst].
  intros data. split.
  - intros Hin. apply in_app_or in Hin. destruct Hin as [Hin | Hin].
    { exfalso. apply In_update in Hin. rewrite Forall_forall in *.
      specialize (H1 x (Hin1 x Hin)). lia. }
    apply in_app_or in Hin. destruct Hin as [Hin | Hin].
    + destruct Htx as [-> | [data' ->]]; [contradiction|].
      destruct Hin as [E | []]. now rewrite E.
    + exfalso. apply In_update in Hin. rewrite Forall_forall in *.
      specialize (H2 x (Hin2 x Hin)). lia.
  - intros ->. apply in_or_app. right. now left.
Qed.

End Reached.

(** When [xref_length] returns [n], the turn of an object [x] of
    [1 .. n - 1] within [recompress_images_in_doc]. *)
Lemma recompress_reached {F : Fitz} (doc : Doc) (quality min_kb : Z)
    (only_if_smaller : bool) (n x : Z) :
  xref_length doc = Ok n -> 1 <= x < n ->
  let t := fst (recompress_images_in_doc doc quality min_kb
                                         only_if_smaller) in
  forall data,
    In (UpdateStream x data) t
    <-> fst (recompress_xref quality (min_kb * 1024) only_if_smaller
               (doc_when_reached doc t x, 0) x)
        = [UpdateStream x data].
Proof.
  intros En Hx. cbv zeta. rewrite recompress_images_in_doc_unfold, En.
  rewrite (range_split 1 x n) by lia.
  apply loop_reached.
  - eapply Forall_impl; [|apply range_bounds]. simpl. intros y. lia.
  - eapply Forall_impl; [|apply range_bounds]. simpl. intros y. lia.
Qed.

(** C4.  Every replacement that [recompress_images_in_doc] makes is of an
    image whose stream, in the document as it stood then, has at least
    [min_kb * 1024] bytes, by the re-encoding of that image, which is
    strictly smaller than the stream when the only-if-smaller flag is on:
    an image below the threshold is never touched.  Conversely, for an
    image that is at or above the threshold when the loop reaches it and
    that was re-encoded, the function replaces the stream exactly when the
    size policy allows it and the replacing call returns: with the flag on
    the new stream must be strictly smaller, with the flag off its size
    plays no part. *)
Theorem recompress_replaces_by_policy {F : Fitz} (doc : Doc)
    (quality min_kb : Z) (only_if_smaller : bool) :
  let t := fst (recompress_images_in_doc doc quality min_kb
                                         only_if_smaller) in
  (forall (pre post : list event) (xref : Z) (data : bytes),
     t = pre ++ UpdateStream xref data :: post ->
     exists (ty : str) (orig : bytes),
       xref_get_key (apply_updates doc (updates pre)) xref (lit "Subtype")
         = Ok (ty, lit "/Image")
       /\ xref_stream (apply_updates doc (updates pre)) xref = Ok (Some orig)
       /\ min_kb * 1024 <= len orig
       /\ reencoded quality (apply_updates doc (updates pre)) xref = Ok data
       /\ (only_if_smaller = true -> len data < len orig))
  /\ (forall (n xref : Z) (ty : str) (orig data : bytes),
        xref_length doc = Ok n ->
        1 <= xref < n ->
        xref_get_key (doc_when_reached doc t xref) xref (lit "Subtype")
          = Ok (ty, lit "/Image") ->
        xref_stream (doc_when_reached doc t xref) xref = Ok (Some orig) ->
        min_kb * 1024 <= len orig ->
        reencoded quality (doc_when_reached doc t xref) xref = Ok data ->
        (In (UpdateStream xref data) t
         <-> (only_if_smaller = false \/ len data < len orig)
             /\ exists d',
                  update_stream (doc_when_reached doc t xref) xref data
                  = Ok d')).
Proof.
  cbv zeta. split.
  - intros pre post xref data E.
    rewrite recompress_images_in_doc_unfold in E.
    destruct (xref_length doc) as [n|e].
    + apply (recompress_loop_justified quality (min_kb * 1024)
               only_if_smaller _ _ _ _ _ _ _ E).
    + destruct pre; discriminate E.
  - intros n xref ty orig data En Hx Hk Hs Hm Hr.
    rewrite (recompress_reached doc quality min_kb only_if_smaller n xref
               En Hx data).
    set (d := doc_when_reached doc _ xref) in *. split.
    + intros Et.
      destruct (recompress_xref_cases quality (min_kb * 1024)
                  only_if_smaller d 0 xref)
        as [E | (ty' & orig' & data' & d' & _ & Hs' & _ & _ & Ho & Hu & E)];
        rewrite E in Et; [discriminate Et|].
      cbn [fst] in Et. injection Et as ->.
      rewrite Hs in Hs'. injection Hs' as <-. split; [|eauto].
      destruct only_if_smaller; [right; now apply Ho | now left].
    + intros [Ho [d' Hu]].
      now rewrite (recompress_xref_replaces quality (min_kb * 1024)
                     only_if_smaller d d' 0 xref ty orig data Hk Hs Hm Hr
                     Ho Hu).
Qed.

Lemma recompress_replaces_by_policy_witness :
  In (UpdateStream 1 Sample.one_byte)
     (fst (recompress_images_in_doc (F := Sample.pdf) Sample.plain_doc
                                    70 0 false)).
Proof.
  apply (proj2 (recompress_replaces_by_policy (F := Sample.pdf)
                  Sample.plain_doc 70 0 false)
           2 1 (lit "name") Sample.two_bytes Sample.one_byte).
  - reflexivity.
  - lia.
  - reflexivity.
  - reflexivity.
  - vm_compute. discriminate.
  - reflexivity.
  - split; [now left | eexists; reflexivity].
Defined.

(** C5, as the code has it.  In [recompress_images_in_doc] a call that
    raises for an object (reading its type or its stream, decoding,
    converting, encoding or replacing) ends the turn for that object only:
    the loop goes on with the next object from the same document and the
    same count, and the stream of that object is not replaced.  Once
    [doc.xref_length()] has returned, the function does not raise; it logs
    nothing but the replacements it made, returns their number, and leaves
    the document they produce.  An exception of [doc.xref_length()], which
    is called outside every [try], is raised by the function. *)
Theorem recompress_swallows_step_failures {F : Fitz} (doc : Doc)
    (quality min_kb : Z) (only_if_smaller : bool) :
  let r := recompress_images_in_doc doc quality min_kb only_if_smaller in
  (forall (d : Doc) (k xref : Z) (xs : list Z),
     step_fails quality d xref ->
     for_each (xref :: xs)
       (recompress_xref quality (min_kb * 1024) only_if_smaller) (d, k)
     = for_each xs
         (recompress_xref quality (min_kb * 1024) only_if_smaller) (d, k))
  /\ (forall n xref,
        xref_length doc = Ok n -> 1 <= xref < n ->
        step_fails quality (doc_when_reached doc (fst r) xref) xref ->
        forall data, ~ In (UpdateStream xref data) (fst r))
  /\ (forall n,
        xref_length doc = Ok n ->
        exists (doc' : Doc) (replaced : Z),
          snd r = Ok (doc', replaced)
          /\ replaced = len (updates (fst r))
          /\ doc' = apply_updates doc (updates (fst r))
          /\ fst r = map (fun u => UpdateStream (fst u) (snd u))
                         (updates (fst r)))
  /\ (forall e, xref_length doc = Raise e -> r = ([], Raise e)).
Proof.
  cbv zeta. split; [|split; [|split]].
  - intros d k xref xs Hf. cbn [for_each].
    rewrite (recompress_xref_skips _ _ _ _ _ _ Hf), mbind_ok.
    now destruct (for_each xs _ (d, k)).
  - intros n xref En Hx Hf data Hin.
    apply (recompress_reached doc quality min_kb only_if_smaller n xref
             En Hx data) in Hin.
    rewrite (recompress_xref_skips _ _ _ _ _ _ Hf) in Hin. discriminate Hin.
  - intros n En. rewrite recompress_images_in_doc_unfold, En.
    destruct (recompress_loop quality (min_kb * 1024) only_if_smaller
                (range 1 n) doc 0) as (t & doc' & E & Hd & Hm).
    rewrite E. cbn [fst snd]. exists doc', (0 + len (updates t)). auto.
  - intros e En. now rewrite recompress_images_in_doc_unfold, En.
Qed.

Lemma recompress_swallows_step_failures_witness :
  for_each [1; 2] (recompress_xref (F := Sample.pdf) 70 (0 * 1024) false)
           (Sample.locked_doc, 0)
  = for_each [2] (recompress_xref (F := Sample.pdf) 70 (0 * 1024) false)
             (Sample.locked_doc, 0).
Proof.
  apply (proj1 (recompress_swallows_step_failures (F := Sample.pdf)
                  Sample.locked_doc 70 0 false)).
  apply (fails_replace (F := Sample.pdf) 70 Sample.locked_doc 1
           Sample.one_byte (MemPdf.err "cannot update stream")); reflexivity.
Defined.

(** The claim C5 as stated fails on a closed document: the first call of
    the function, [doc.xref_length()], raises, and so does the function. *)
Lemma recompress_closed_document_raises :
  recompress_images_in_doc (F := Sample.pdf) Sample.closed_doc 70 0 true
  = ([], Raise MemPdf.closed_error).
Proof. reflexivity. Qed.

(** ** What a job leaves behind *)

Section JobEffects.
Context {U : Unicode} {O : Os} {F : Fitz}.

Lemma Forall_mbind {A B : Type} (P : event -> Prop) (m : M A)
    (k : A -> M B) :
  Forall P (fst m) -> (forall x, Forall P (fst (k x))) ->
  Forall P (fst (mbind m k)).
Proof.
  intros Hm Hk. rewrite fst_mbind. apply Forall_app. split; [exact Hm|].
  destruct (snd m); [apply Hk | constructor].
Qed.

Lemma flat_map_mbind_nil {A B C : Type} (f : event -> list C) (m : M A)
    (k : A -> M B) :
  flat_map f (fst m) = [] -> (forall x, flat_map f (fst (k x)) = []) ->
  flat_map f (fst (mbind m k)) = [].
Proof.
  intros Hm Hk. rewrite fst_mbind, flat_map_app, Hm.
  destruct (snd m); [apply Hk | reflexivity].
Qed.

Lemma saves_iff_ok_mbind {A B : Type} (s : str * save_options) (m : M A)
    (k : A -> M B) :
  saves (fst m) = [] -> (forall x, saves_iff_ok s (k x)) ->
  saves_iff_ok s (mbind m k).
Proof.
  intros Hm Hk. unfold saves_iff_ok, saves in *.
  rewrite fst_mbind, snd_mbind, flat_map_app, Hm.
  destruct (snd m) as [x|e]; [apply Hk | right; eauto].
Qed.

Lemma saves_iff_ok_save_to (doc_out : Doc) (dest_pdf : str)
    (o : save_options) :
  saves_iff_ok (dest_pdf, o) (save_to doc_out dest_pdf o).
Proof.
  unfold saves_iff_ok, save_to, call.
  destruct (save doc_out dest_pdf o) as [[]|e]; simpl; [left|right]; eauto.
Qed.

Lemma saves_updates (us : list (Z * bytes)) :
  flat_map (fun e => match e with
                     | Save path _ opts => [(path, opts)]
                     | _ => []
                     end)
           (map (fun u => UpdateStream (fst u) (snd u)) us) = [].
Proof. induction us as [|u us IH]; simpl; auto. Qed.

Lemma flat_map_nil_of {C : Type} (f : event -> list C) (P : event -> Prop)
    (t : list event) :
  Forall P t -> (forall e, P e -> f e = []) -> flat_map f t = [].
Proof.
  intros Ht Hf. induction Ht as [|e t He _ IH]; simpl; [reflexivity|].
  now rewrite (Hf e He), IH.
Qed.

(** The merging loop logs appended sources only. *)
Lemma merge_loop_events (srcs : list str) (doc_out : Doc) :
  Forall (fun e => exists src, e = InsertPdf src)
         (fst (for_each srcs merge_source doc_out)).
Proof.
  apply for_each_trace. intros d src. unfold merge_source, call.
  destruct (open_pdf src) as [d0|e]; simpl; [|constructor].
  destruct (insert_pdf d d0) as [d1|e]; simpl; repeat constructor; eauto.
Qed.

Lemma unify_group_unfold (dest_pdf : str) (source_paths : list str)
    (optimize : str) (jr : bool) (jq jm : Z) (js : bool) :
  unify_group dest_pdf source_paths optimize jr jq jm js
  = try_finally
      (mbind (for_each (sorted source_paths) merge_source new_doc)
             (after_merge dest_pdf optimize jr jq jm js))
      [CloseDoc].
Proof. reflexivity. Qed.

(** The optional recompression logs replacements and its [IMG] line
    only. *)
Lemma recompress_part_events (jr : bool) (jq jm : Z) (js : bool)
    (base : str) (doc_out : Doc) :
  let m := if jr then
             r <- recompress_images_in_doc doc_out jq jm js ;;
             emit (Stdout (MsgImg base (snd r))) ;;;
             ret (fst r)
           else ret doc_out in
  Forall (fun e => is_job_event e = true) (fst m)
  /\ saves (fst m) = []
  /\ (jr = false -> updates (fst m) = []).
Proof.
  cbv zeta. destruct jr; [|repeat split; constructor].
  split; [|split; [|discriminate]].
  - apply Forall_mbind.
    + rewrite (recompress_images_in_doc_trace doc_out jq jm js).
      apply Forall_forall. intros e He. apply in_map_iff in He.
      now destruct He as [u [<- _]].
    + intros r. repeat constructor.
  - unfold saves. apply flat_map_mbind_nil.
    + rewrite (recompress_images_in_doc_trace doc_out jq jm js).
      apply saves_updates.
    + intros r. reflexivity.
Qed.

Lemma after_merge_events (dest_pdf optimize : str) (jr : bool)
    (jq jm : Z) (js : bool) (doc_out : Doc) :
  Forall (fun e => is_job_event e = true)
         (fst (after_merge dest_pdf optimize jr jq jm js doc_out)).
Proof.
  unfold after_merge. apply Forall_mbind.
  - apply recompress_part_events.
  - intros d. apply Forall_mbind.
    + unfold makedirs, call.
      destruct (os_makedirs _) as [[]|e]; repeat constructor.
    + intros _. unfold save_to, call.
      destruct (str_eqb optimize (lit "none")).
      { destruct (save _ _ _) as [[]|]; repeat constructor. }
      destruct (str_eqb optimize (lit "light")).
      { destruct (save _ _ _) as [[]|]; repeat constructor. }
      destruct (scrub d) as [d2|]; [|constructor]. simpl.
      destruct (subset_fonts d2) as [d3|]; [|constructor]. simpl.
      destruct (save _ _ _) as [[]|]; repeat constructor.
Qed.

Lemma after_merge_saves (dest_pdf optimize : str) (jr : bool)
    (jq jm : Z) (js : bool) (doc_out : Doc) :
  saves_iff_ok (dest_pdf, save_options_of optimize)
               (after_merge dest_pdf optimize jr jq jm js doc_out).
Proof.
  unfold after_merge. apply saves_iff_ok_mbind.
  - apply recompress_part_events.
  - intros d. apply saves_iff_ok_mbind.
    + unfold makedirs, call. now destruct (os_makedirs _) as [[]|e].
    + intros _. unfold save_options_of.
      destruct (str_eqb optimize (lit "none"));
        [apply saves_iff_ok_save_to|].
      destruct (str_eqb optimize (lit "light"));
        [apply saves_iff_ok_save_to|].
      apply saves_iff_ok_mbind; [unfold call; reflexivity|]. intros d2.
      apply saves_iff_ok_mbind; [unfold call; reflexivity|]. intros d3.
      apply saves_iff_ok_save_to.
Qed.

Lemma after_merge_no_updates (dest_pdf optimize : str) (jq jm : Z)
    (js : bool) (doc_out : Doc) :
  updates (fst (after_merge dest_pdf optimize false jq jm js doc_out)) = [].
Proof.
  unfold after_merge, updates. apply flat_map_mbind_nil; [reflexivity|].
  intros d. apply flat_map_mbind_nil.
  - unfold makedirs, call. now destruct (os_makedirs _) as [[]|e].
  - intros _. unfold save_to, call.
    destruct (str_eqb optimize (lit "none")).
    { now destruct (save _ _ _) as [[]|]. }
    destruct (str_eqb optimize (lit "light")).
    { now destruct (save _ _ _) as [[]|]. }
    destruct (scrub d) as [d2|]; [|reflexivity]. simpl.
    destruct (subset_fonts d2) as [d3|]; [|reflexivity]. simpl.
    now destruct (save _ _ _) as [[]|].
Qed.

(** A job logs nothing but its own events: no report line is among them. *)
Lemma unify_group_events (dest_pdf : str) (source_paths : list str)
    (optimize : str) (jr : bool) (jq jm : Z) (js : bool) :
  Forall (fun e => is_job_event e = true)
         (fst (unify_group dest_pdf source_paths optimize jr jq jm js)).
Proof.
  rewrite unify_group_unfold. unfold try_finally.
  destruct (mbind _ _) as [t r] eqn:E. cbn [fst].
  apply Forall_app. split; [|repeat constructor].
  replace t with (fst (mbind (for_each (sorted source_paths) merge_source
                                        new_doc)
                             (after_merge dest_pdf optimize jr jq jm js)))
    by now rewrite E.
  apply Forall_mbind; [|apply after_merge_events].
  eapply Forall_impl; [|apply merge_loop_events].
  intros e [src ->]. reflexivity.
Qed.

(** X13.  A job that ends normally has saved exactly once, to its
    destination, with the options of its level: those of [none], those of
    [light], and for every other level those of [full].  A job that raises
    has saved nothing.  In both cases the output document is closed last. *)
Theorem unify_group_saves_once (dest_pdf : str) (source_paths : list str)
    (optimize : str) (jr : bool) (jq jm : Z) (js : bool) :
  let r := unify_group dest_pdf source_paths optimize jr jq jm js in
  (snd r = Ok tt -> saves (fst r) = [(dest_pdf, save_options_of optimize)])
  /\ (forall e, snd r = Raise e -> saves (fst r) = [])
  /\ (exists t, fst r = t ++ [CloseDoc])
  /\ (optimize <> lit "none" -> optimize <> lit "light" ->
      save_options_of optimize = save_full).
Proof.
  cbv zeta. rewrite unify_group_unfold.
  assert (Hs : saves_iff_ok (dest_pdf, save_options_of optimize)
                 (mbind (for_each (sorted source_paths) merge_source new_doc)
                        (after_merge dest_pdf optimize jr jq jm js))).
  { apply saves_iff_ok_mbind; [|intros d; apply after_merge_saves].
    apply (flat_map_nil_of _ _ _ (merge_loop_events _ _)).
    now intros e [src ->]. }
  unfold try_finally. destruct (mbind _ _) as [t r]. cbn [fst snd] in *.
  assert (Et : saves (t ++ [CloseDoc]) = saves t).
  { unfold saves. rewrite flat_map_app. apply app_nil_r. }
  rewrite Et. unfold saves_iff_ok in Hs. cbn [fst snd] in Hs.
  split; [|split; [|split]].
  - intros ->. destruct Hs as [[x [_ Hx]] | [e [He _]]];
      [exact Hx | discriminate].
  - intros e ->. destruct Hs as [[x [Hx _]] | [e' [_ He]]];
      [discriminate | exact He].
  - eauto.
  - intros Hn Hl. unfold save_options_of.
    apply str_eqb_neq in Hn, Hl. now rewrite Hn, Hl.
Qed.

(** X14.  With recompression switched off a job replaces no stream and
    prints no [IMG] line: besides appending the sources it only creates
    the directory, saves and closes. *)
Theorem unify_group_without_recompression (dest_pdf : str)
    (source_paths : list str) (optimize : str) (jq jm : Z) (js : bool) :
  let t := fst (unify_group dest_pdf source_paths optimize false jq jm js) in
  updates t = [] /\ forallb (fun e => negb (is_stdout e)) t = true.
Proof.
  cbv zeta. rewrite unify_group_unfold. unfold try_finally.
  destruct (mbind _ _) as [t r] eqn:E. cbn [fst].
  assert (Et : t = fst (mbind (for_each (sorted source_paths) merge_source
                                        new_doc)
                              (after_merge dest_pdf optimize false jq jm js)))
    by now rewrite E.
  split.
  - unfold updates. rewrite flat_map_app, app_nil_r. rewrite Et.
    apply flat_map_mbind_nil.
    + apply (flat_map_nil_of _ _ _ (merge_loop_events _ _)).
      now intros e [src ->].
    + intros d. apply after_merge_no_updates.
  - rewrite forallb_app, andb_true_r. apply forallb_forall.
    assert (Hq : Forall (fun e => is_stdout e = false) t).
    { rewrite Et. apply Forall_mbind.
      - eapply Forall_impl; [|apply merge_loop_events].
        intros e [src ->]. reflexivity.
      - intros d. unfold after_merge. apply Forall_mbind; [constructor|].
        intros d1. apply Forall_mbind.
        + unfold makedirs, call.
          destruct (os_makedirs _) as [[]|e]; repeat constructor.
        + intros _. unfold save_to, call.
          destruct (str_eqb optimize (lit "none")).
          { destruct (save _ _ _) as [[]|]; repeat constructor. }
          destruct (str_eqb optimize (lit "light")).
          { destruct (save _ _ _) as [[]|]; repeat constructor. }
          destruct (scrub d1) as [d2|]; [|constructor]. simpl.
          destruct (subset_fonts d2) as [d3|]; [|constructor]. simpl.
          destruct (save _ _ _) as [[]|]; repeat constructor. }
    rewrite Forall_forall in Hq. intros e He. now rewrite (Hq e He).
Qed.

End JobEffects.

(** ** Stage 2: how a run ends and what it reports *)

Section Stage2.
Context {U : Unicode} {O : Os} {F : Fitz}.
Variables (a : Args) (out_dir : str) (groups : dict).

Lemma getitem_in_keys (k : str) :
  In k (keys groups) -> getitem groups k = Ok (group_of groups k).
Proof.
  unfold group_of. induction groups as [|[k0 v0] g IH]; simpl; [tauto|].
  destruct (str_eqb k0 k) eqn:E; [reflexivity|].
  intros [-> | Hin]; [now rewrite str_eqb_refl in E | now apply IH].
Qed.

Lemma reports_job_events (t : list event) :
  Forall (fun e => is_job_event e = true) t -> reports t = [].
Proof.
  intros Ht. unfold reports. apply (flat_map_nil_of _ _ _ Ht).
  intros [[]| | | | |]; simpl; congruence.
Qed.

Lemma print_progress_value (current total : Z) (prefix : str) :
  snd (print_progress current total prefix) = Ok tt
  /\ reports (fst (print_progress current total prefix)) = [].
Proof.
  unfold print_progress. simpl. now destruct (total <=? current).
Qed.

(** What a worker returns and logs, by its job. *)
Lemma run_worker_value (feat : str) (paths : list str) :
  run_worker a out_dir feat paths
  = (fst (job a out_dir feat paths),
     Ok (feat, len paths,
         match snd (job a out_dir feat paths) with
         | Ok _ => lit "OK"
         | Raise e => lit "ERROR: " ++ exn_str e
         end)).
Proof. unfold run_worker, job. now rewrite worker_unify_value. Qed.

Lemma job_reports (feat : str) (paths : list str) :
  reports (fst (job a out_dir feat paths)) = [].
Proof. apply reports_job_events. apply unify_group_events. Qed.

Lemma serial_loop (total_groups : Z) (feats : list str) (done : Z) :
  (forall feat, In feat feats -> In feat (keys groups)) ->
  snd (for_each feats (serial_step a out_dir groups total_groups) done)
    = Ok (done + len feats)
  /\ reports (fst (for_each feats
                     (serial_step a out_dir groups total_groups) done))
     = map (fun feat => MsgOK feat (len (group_of groups feat))) feats.
Proof.
  revert done. induction feats as [|feat feats IH]; intros done Hk.
  - simpl. split; [now rewrite Z.add_0_r | reflexivity].
  - cbn [for_each].
    rewrite (serial_step_reports_ok a out_dir groups total_groups done feat
               (group_of groups feat))
      by (apply getitem_in_keys; apply Hk; now left).
    rewrite mbind_ok. cbn [fst snd].
    destruct (IH (done + 1)) as [Es Er]; [intros f Hf; apply Hk; now right|].
    split.
    + rewrite Es. f_equal. unfold len. simpl length. lia.
    + unfold reports in *. rewrite !flat_map_app, Er.
      rewrite run_worker_value. cbn [fst].
      fold (reports (fst (job a out_dir feat (group_of groups feat)))).
      rewrite job_reports.
      destruct (print_progress_value (done + 1) total_groups
                  (lit "[Merge groups]")) as [_ Hp].
      unfold reports in Hp. rewrite Hp. reflexivity.
Qed.

Lemma submit_loop (feats : list str) (acc : list (M JobResult)) :
  (forall feat, In feat feats -> In feat (keys groups)) ->
  for_each feats
    (fun acc feat => fut <- submit a out_dir groups feat ;; ret (acc ++ [fut]))
    acc
  = ([], Ok (acc ++ map (fun feat =>
                           run_worker a out_dir feat (group_of groups feat))
                        feats)).
Proof.
  revert acc. induction feats as [|feat feats IH]; intros acc Hk.
  - simpl. now rewrite app_nil_r.
  - cbn [for_each]. unfold submit at 1, call.
    rewrite (getitem_in_keys feat) by (apply Hk; now left). simpl.
    rewrite IH by (intros f Hf; apply Hk; now right).
    simpl. now rewrite <- app_assoc.
Qed.

Lemma parallel_loop (total_groups : Z) (feats : list str) (done : Z) :
  snd (for_each (map (fun feat =>
                        run_worker a out_dir feat (group_of groups feat))
                     feats)
                (parallel_step total_groups) done)
    = Ok (done + len feats)
  /\ reports (fst (for_each
                     (map (fun feat =>
                             run_worker a out_dir feat (group_of groups feat))
                          feats)
                     (parallel_step total_groups) done))
     = map (pool_report a out_dir groups) feats.
Proof.
  revert done. induction feats as [|feat feats IH]; intros done.
  - simpl. split; [now rewrite Z.add_0_r | reflexivity].
  - cbn [map for_each]. rewrite run_worker_value.
    rewrite parallel_step_reports_status, mbind_ok. cbn [fst snd].
    destruct (IH (done + 1)) as [Es Er]. split.
    + rewrite Es. f_equal. unfold len. simpl length. lia.
    + unfold reports in *. rewrite !flat_map_app, Er.
      fold (reports (fst (job a out_dir feat (group_of groups feat)))).
      rewrite job_reports.
      destruct (print_progress_value (done + 1) total_groups
                  (lit "[Merge groups]")) as [_ Hp].
      unfold reports in Hp. rewrite Hp. unfold pool_report.
      destruct (snd (job a out_dir feat (group_of groups feat)));
        reflexivity.
Qed.

Lemma as_completed_map {A B : Type} (f : A -> B) (l : list A)
    (order : list nat) :
  as_completed (map f l) order = map f (as_completed l order).
Proof.
  unfold as_completed. induction order as [|i order IH]; simpl;
    [reflexivity|].
  rewrite map_app, IH, nth_error_map. now destruct (nth_error l i).
Qed.

Lemma as_completed_seq_from {A : Type} (pre l : list A) :
  flat_map (fun i => match nth_error (pre ++ l) i with
                     | Some f => [f]
                     | None => []
                     end) (seq (length pre) (length l)) = l.
Proof.
  revert pre. induction l as [|x l IH]; intros pre; simpl; [reflexivity|].
  rewrite nth_error_app2, Nat.sub_diag by lia. simpl. f_equal.
  specialize (IH (pre ++ [x])).
  rewrite <- app_assoc, length_app in IH. simpl in IH.
  now rewrite Nat.add_1_r in IH.
Qed.

(** When every job completes once, the completed jobs are the submitted
    ones in some order. *)
Lemma as_completed_permutation {A : Type} (l : list A) (order : list nat) :
  Permutation order (seq 0 (length l)) -> Permutation (as_completed l order) l.
Proof.
  intros Hp. unfold as_completed.
  rewrite (Permutation_flat_map _ Hp).
  pose proof (as_completed_seq_from [] l) as E. simpl in E. now rewrite E.
Qed.

Lemma flat_map_mbind {A B C : Type} (f : event -> list C) (m : M A)
    (k : A -> M B) :
  flat_map f (fst (mbind m k))
  = flat_map f (fst m) ++ match snd m with
                          | Ok x => flat_map f (fst (k x))
                          | Raise _ => []
                          end.
Proof. rewrite fst_mbind, flat_map_app. now destruct (snd m). Qed.

Lemma sorted_keys_in (feat : str) :
  In feat (sorted (keys groups)) -> In feat (keys groups).
Proof. apply sorted_In. Qed.

(** Stage 2 by its parts, once the output directory exists. *)
Lemma stage2_value (order : list nat) :
  os_makedirs out_dir = Ok tt ->
  snd (stage2 a out_dir groups order) = Ok tt
  /\ reports (fst (stage2 a out_dir groups order))
     = (if serial a || (len (sorted (keys groups)) =? 0)
        then map (fun feat => MsgOK feat (len (group_of groups feat)))
                 (sorted (keys groups))
        else map (pool_report a out_dir groups)
                 (as_completed (sorted (keys groups)) order)).
Proof.
  intros Em. unfold stage2, makedirs, call, emit. rewrite Em.
  set (total := len (sorted (keys groups))).
  destruct (print_progress_value 0 total (lit "[Merge groups]"))
    as [Hps Hpr].
  unfold reports in *.
  rewrite !mbind_ok. cbn [fst snd]. rewrite !mbind_ok. cbn [fst snd].
  rewrite !flat_map_app. cbn [flat_map app].
  rewrite snd_mbind, flat_map_mbind, Hps, Hpr. cbn [app].
  rewrite snd_mbind, flat_map_mbind.
  destruct (serial a || (total =? 0)).
  - destruct (serial_loop total (sorted (keys groups)) 0 sorted_keys_in)
      as [Es Er].
    unfold reports in Er.
    rewrite snd_mbind, flat_map_mbind, Es, Er. simpl.
    now rewrite !app_nil_r.
  - rewrite (submit_loop (sorted (keys groups)) [] sorted_keys_in).
    rewrite mbind_ok. cbn [fst snd app].
    rewrite as_completed_map.
    destruct (parallel_loop total (as_completed (sorted (keys groups)) order)
                0) as [Es Er].
    unfold reports in Er.
    rewrite snd_mbind, flat_map_mbind, Es, Er. simpl.
    now rewrite !app_nil_r.
Qed.

End Stage2.

Section RunOutcome.
Context {U : Unicode} {O : Os} {F : Fitz}.



(** X16.  In serial mode stage 2 prints, once the output directory
    exists, exactly one report per group, in sorted key order, and each
    of them is the [OK] line with the size of the group: no [WARN] line is
    ever printed, whatever the jobs did. *)
Theorem stage2_serial_reports (a : Args) (out_dir : str) (groups : dict)
    (order : list nat) :
  os_makedirs out_dir = Ok tt ->
  serial a = true ->
  reports (fst (stage2 a out_dir groups order))
  = map (fun feat => MsgOK feat (len (group_of groups feat)))
        (sorted (keys groups)).
Proof.
  intros Em Hs. destruct (stage2_value a out_dir groups order Em) as [_ Er].
  rewrite Er, Hs. reflexivity.
Qed.

(** X17.  Through the pool stage 2 prints, once the output directory
    exists, one report per completed job, in completion order: the [OK]
    line when the job of the group ended normally and the [WARN] line with
    the message of its exception when it raised.  When every job completes
    once, these are the reports of all groups, one each. *)
Theorem stage2_pool_reports (a : Args) (out_dir : str) (groups : dict)
    (order : list nat) :
  os_makedirs out_dir = Ok tt ->
  serial a = false ->
  groups <> [] ->
  reports (fst (stage2 a out_dir groups order))
  = map (pool_report a out_dir groups)
        (as_completed (sorted (keys groups)) order)
  /\ (Permutation order (seq 0 (length groups)) ->
      Permutation (reports (fst (stage2 a out_dir groups order)))
                  (map (pool_report a out_dir groups)
                       (sorted (keys groups)))).
Proof.
  intros Em Hs Hg. destruct (stage2_value a out_dir groups order Em) as [_ Er].
  assert (El : length (sorted (keys groups)) = length groups).
  { rewrite <- (Permutation_length (sorted_perm _)). apply length_map. }
  assert (Ez : (len (sorted (keys groups)) =? 0) = false).
  { apply Z.eqb_neq. unfold len. rewrite El.
    destruct groups; [congruence | simpl; lia]. }
  rewrite Hs, Ez in Er. cbn [orb] in Er. split; [exact Er|].
  intros Hp. rewrite Er. apply Permutation_map.
  apply as_completed_permutation. now rewrite El.
Qed.

End RunOutcome.


Lemma stage2_serial_reports_witness :
  reports (fst (stage2 (O := Sample.os) (F := Sample.pdf) (Sample.args true)
                       SampleRun.out_dir SampleRun.groups []))
  = [MsgOK (lit "A") 2; MsgOK (lit "B") 1].
Proof.
  apply (stage2_serial_reports (O := Sample.os) (F := Sample.pdf)
           (Sample.args true) SampleRun.out_dir SampleRun.groups []);
    reflexivity.
Defined.

Lemma stage2_pool_reports_witness :
  reports (fst (stage2 (O := Sample.os) (F := Sample.pdf) (Sample.args false)
                       SampleRun.out_dir SampleRun.groups [1%nat; 0%nat]))
  = [MsgWarn (lit "B") 1 (lit "ERROR: broken"); MsgOK (lit "A") 2].
Proof.
  apply (proj1 (stage2_pool_reports (O := Sample.os) (F := Sample.pdf)
                  (Sample.args false) SampleRun.out_dir SampleRun.groups
                  [1%nat; 0%nat] eq_refl eq_refl ltac:(discriminate))).
Defined.

(** ** The files a run writes *)

Section WrittenFiles.
Context {U : Unicode} {O : Os} {F : Fitz}.
Variables (a : Args) (out_dir : str) (groups : dict).
Variable C : Type.
Variable f : event -> list C.
Hypothesis f_stdout : forall m, f (Stdout m) = [].

Lemma print_progress_proj (current total : Z) (prefix : str) :
  flat_map f (fst (print_progress current total prefix)) = [].
Proof.
  unfold print_progress. simpl. destruct (total <=? current); simpl;
    now rewrite !f_stdout.
Qed.

Lemma serial_loop_proj (total_groups : Z) (feats : list str) (done : Z) :
  (forall feat, In feat feats -> In feat (keys groups)) ->
  flat_map f (fst (for_each feats
                     (serial_step a out_dir groups total_groups) done))
  = flat_map (fun feat =>
                flat_map f (fst (job a out_dir feat (group_of groups feat))))
             feats.
Proof.
  revert done. induction feats as [|feat feats IH]; intros done Hk;
    [reflexivity|].
  cbn [for_each].
  rewrite (serial_step_reports_ok a out_dir groups total_groups done feat
             (group_of groups feat))
    by (apply getitem_in_keys; apply Hk; now left).
  rewrite mbind_ok. cbn [fst flat_map].
  rewrite !flat_map_app, IH by (intros x Hx; apply Hk; now right).
  rewrite run_worker_value, print_progress_proj. cbn [fst flat_map].
  rewrite f_stdout. cbn [app]. now rewrite app_nil_r.
Qed.

Lemma parallel_loop_proj (total_groups : Z) (feats : list str) (done : Z) :
  flat_map f (fst (for_each
                     (map (fun feat =>
                             run_worker a out_dir feat (group_of groups feat))
                          feats)
                     (parallel_step total_groups) done))
  = flat_map (fun feat =>
                flat_map f (fst (job a out_dir feat (group_of groups feat))))
             feats.
Proof.
  revert done. induction feats as [|feat feats IH]; intros done;
    [reflexivity|].
  cbn [map for_each]. rewrite run_worker_value.
  rewrite parallel_step_reports_status, mbind_ok. cbn [fst flat_map].
  rewrite !flat_map_app, IH, print_progress_proj. cbn [flat_map].
  rewrite f_stdout. cbn [app]. now rewrite app_nil_r.
Qed.

Lemma stage2_proj (order : list nat) :
  os_makedirs out_dir = Ok tt ->
  flat_map f (fst (stage2 a out_dir groups order))
  = f (MakeDirs out_dir)
    ++ flat_map (fun feat =>
                   flat_map f (fst (job a out_dir feat
                                        (group_of groups feat))))
                (if serial a || (len (sorted (keys groups)) =? 0)
                 then sorted (keys groups)
                 else as_completed (sorted (keys groups)) order).
Proof.
  intros Em. unfold stage2, makedirs, call, emit. rewrite Em.
  set (total := len (sorted (keys groups))).
  destruct (print_progress_value 0 total (lit "[Merge groups]"))
    as [Hps _].
  rewrite !mbind_ok. cbn [fst snd]. rewrite !mbind_ok. cbn [fst snd].
  rewrite !flat_map_app. cbn [flat_map app].
  rewrite f_stdout, flat_map_mbind, Hps, print_progress_proj.
  cbn [app]. rewrite app_nil_r. f_equal.
  rewrite flat_map_mbind.
  destruct (serial a || (total =? 0)).
  - destruct (serial_loop a out_dir groups total (sorted (keys groups)) 0
                (sorted_keys_in groups)) as [Es _].
    rewrite flat_map_mbind, Es, serial_loop_proj
      by apply sorted_keys_in.
    rewrite snd_mbind, Es. simpl. now rewrite f_stdout, !app_nil_r.
  - rewrite (submit_loop a out_dir groups (sorted (keys groups)) []
               (sorted_keys_in groups)).
    rewrite mbind_ok. cbn [fst snd app].
    rewrite as_completed_map.
    destruct (parallel_loop a out_dir groups total
                (as_completed (sorted (keys groups)) order) 0) as [Es _].
    rewrite flat_map_mbind, Es, parallel_loop_proj.
    rewrite snd_mbind, Es. simpl. now rewrite f_stdout, !app_nil_r.
Qed.

End WrittenFiles.

(** A job saves once, to the file of its group, when it ends normally, and
    nothing when it raises. *)
Lemma job_saves {U : Unicode} {O : Os} {F : Fitz} (a : Args)
    (out_dir feat : str) (paths : list str) :
  saves_iff_ok (os_path_join out_dir (sanitize_feature feat ++ lit ".pdf"),
                save_options_of (optimize a))
               (job a out_dir feat paths).
Proof.
  unfold job. rewrite unify_group_unfold.
  match goal with
  | |- saves_iff_ok ?s (try_finally ?m _) =>
      assert (Hs : saves_iff_ok s m)
  end.
  { apply saves_iff_ok_mbind; [|intros d; apply after_merge_saves].
    apply (flat_map_nil_of _ _ _ (merge_loop_events _ _)).
    now intros e [src ->]. }
  unfold try_finally, saves_iff_ok, saves in *.
  destruct (mbind _ _) as [t r]. cbn [fst snd] in *.
  rewrite flat_map_app. cbn [flat_map app]. now rewrite app_nil_r.
Qed.

(** X18.  Once the output directory exists, the files a run saves are
    those of the groups whose job ended normally, one each, in the order
    the jobs are run (serial) or complete (pool): the file of a group is
    its sanitized key with [.pdf] in the output directory, saved with the
    options of the chosen level.  A group whose job raised leaves no
    file. *)
Theorem stage2_saved_files {U : Unicode} {O : Os} {F : Fitz} (a : Args)
    (out_dir : str) (groups : dict) (order : list nat) :
  os_makedirs out_dir = Ok tt ->
  saves (fst (stage2 a out_dir groups order))
  = flat_map
      (fun feat =>
         match snd (job a out_dir feat (group_of groups feat)) with
         | Ok _ => [(os_path_join out_dir (sanitize_feature feat ++ lit ".pdf"),
                     save_options_of (optimize a))]
         | Raise _ => []
         end)
      (if serial a || (len (sorted (keys groups)) =? 0)
       then sorted (keys groups)
       else as_completed (sorted (keys groups)) order).
Proof.
  intros Em. unfold saves at 1.
  rewrite (stage2_proj a out_dir groups _ _ (fun m => eq_refl) order Em).
  cbn [app]. apply flat_map_ext. intros feat.
  destruct (job_saves a out_dir feat (group_of groups feat))
    as [[x [Hs Hv]] | [e [Hs Hv]]]; rewrite Hs; exact Hv.
Qed.

Lemma stage2_saved_files_witness :
  saves (fst (stage2 (O := Sample.os) (F := Sample.pdf) (Sample.args true)
                     SampleRun.out_dir SampleRun.groups []))
  = [(lit "/d/unified_files/A.pdf", save_light)].
Proof.
  etransitivity.
  - apply (stage2_saved_files (O := Sample.os) (F := Sample.pdf)
             (Sample.args true) SampleRun.out_dir SampleRun.groups []).
    reflexivity.
  - reflexivity.
Defined.
